(** * flask_restframework.views.APIView: the request gate

    A shallow embedding of [src/flask_restframework/views.py].  The class
    [APIView] runs three policy steps before the handler body of a view
    (authentication, permissions, throttles) and turns any exception of these
    steps into a response through one exception handler.

    The embedding follows the Python text method by method.  The attributes
    the methods assign on [self] form the record [View]; Flask's [g] and
    whatever else the pluggable policies may read or update form [Ambient];
    [current_app] is the record [App].  A method is a function from the
    machine state to a result (a return value or a raised exception) and the
    next state.  Every call that leaves [views.py] (a policy method, the
    exception handler, the handler body) is recorded in a chronological log,
    so that statements about which calls were made, and in which order, are
    statements about that log. *)

From Stdlib Require Import List String ZArith Bool Lia.
Import ListNotations.

Module APIView.

(** ** Exceptions *)

(** Modelled from the spec: the module [exceptions] is imported by
    [views.py] but is not part of the sources.  The taxonomy of section 7
    gives the API exception family ([AuthenticationFailed],
    [NotAuthenticated], [PermissionDenied], [Throttled], all of them
    [APIException]s); [AttributeError] and [TypeError] are the interpreter's
    own, and [OtherException] stands for any further subclass of
    [Exception]. *)
Inductive ExcClass : Type :=
| APIException
| AuthenticationFailed
| NotAuthenticated
| PermissionDenied
| Throttled
| AttributeError
| TypeError
| OtherException.

(** [isinstance(exc, exceptions.APIException)], as the [except] clause of
    [perform_authentication] tests it. *)
Definition is_APIException (c : ExcClass) : bool :=
  match c with
  | APIException | AuthenticationFailed | NotAuthenticated
  | PermissionDenied | Throttled => true
  | AttributeError | TypeError | OtherException => false
  end.

(** An exception value: its class, the constructor arguments [views.py]
    passes ([detail], [code], the duration of [Throttled]) and the attribute
    [auth_header] that [views.py] assigns on it.  For [exc_auth_header],
    [None] is "never assigned" and [Some v] is "assigned the Python value
    [v]", where [v = None] is Python's [None]. *)
Record Exc : Type := mkExc {
  exc_class : ExcClass;
  exc_detail : option string;
  exc_code : option string;
  exc_duration : option Z;
  exc_auth_header : option (option string)
}.

Definition set_auth_header (e : Exc) (h : option string) : Exc :=
  mkExc (exc_class e) (exc_detail e) (exc_code e) (exc_duration e) (Some h).

(** [exceptions.NotAuthenticated()] *)
Definition new_NotAuthenticated : Exc :=
  mkExc NotAuthenticated None None None None.

(** [exceptions.PermissionDenied(detail=message, code=code)] *)
Definition new_PermissionDenied (message code : option string) : Exc :=
  mkExc PermissionDenied message code None None.

(** [exceptions.Throttled(duration)] *)
Definition new_Throttled (duration : option Z) : Exc :=
  mkExc Throttled None None duration None.

(** What the interpreter raises on [self.x] when [x] was never assigned. *)
Definition new_AttributeError : Exc :=
  mkExc AttributeError None None None None.

(** What the interpreter raises on [None(...)]. *)
Definition new_TypeError : Exc :=
  mkExc TypeError None None None None.

(** The outcome of a call: a returned value or a raised exception. *)
Inductive Res (A : Type) : Type :=
| Ret (a : A)
| Raise (e : Exc).
Arguments Ret {A} a.
Arguments Raise {A} e.

(** Python's [x or y] on lists: [x] when it is truthy (non-empty). *)
Definition py_or {A : Type} (x y : list A) : list A :=
  match x with
  | [] => y
  | _ :: _ => x
  end.

(** [getattr(obj, name, default)] on an attribute that may be absent. *)
Definition getattr {A : Type} (attr : option A) (default : A) : A :=
  match attr with
  | Some a => a
  | None => default
  end.

(** [max(l, default=None)]: the largest element, [None] on the empty list. *)
Definition py_max (l : list Z) : option Z :=
  match l with
  | [] => None
  | d :: ds => Some (fold_left Z.max ds d)
  end.

Section RequestGate.

(** [World] is the part of the process the policies may read and update
    besides Flask's [g] (the request, rate counters, ...); [User] and [Auth]
    are the components of the tuple [authenticate()] returns; [Response] is
    what a handler returns. *)
Context {World User Auth Response : Type}.

(** ** Data model *)

(** [flask.g] with the one attribute [views.py] assigns, and the rest of the
    world.  [g_current_user = None]: the attribute is absent;
    [Some None]: it holds Python's [None]. *)
Record Ambient : Type := mkAmbient {
  g_current_user : option (option User);
  world : World
}.

Definition set_g_current_user (a : Ambient) (u : option User) : Ambient :=
  mkAmbient (Some u) (world a).

(** The result of [authenticator.authenticate()]: a tuple, [None], or an
    exception. *)
Inductive AuthResult : Type :=
| AuthReturn (user_auth_tuple : option (User * Auth))
| AuthRaise (exc : Exc).

(** The collaborator contracts of section 6.  A policy object is created
    without a reference to the view, so its methods act on [Ambient] only.
    Each method returns a value of the type its contract names and may
    update the world; [authenticate] is the one method whose contract has an
    error case, and the one whose exceptions [views.py] handles.  Durations
    are whole numbers. *)
Record Authenticator : Type := mkAuthenticator {
  authenticate : Ambient -> AuthResult * Ambient;
  authenticate_header : Ambient -> string * Ambient
}.

Record Permission : Type := mkPermission {
  has_permission : Ambient -> bool * Ambient;
  message : option string;
  code : option string
}.

Record Throttle : Type := mkThrottle {
  allow_request : Ambient -> bool * Ambient;
  wait : Ambient -> Z * Ambient
}.

(** Classes are called to build the per-request objects: [auth()],
    [permission()], [throttle_class(throttle_rate)].  Construction has no
    effect of its own. *)
Record AuthenticatorClass : Type := mkAuthenticatorClass {
  new_authenticator : Authenticator
}.

Record PermissionClass : Type := mkPermissionClass {
  new_permission : Permission
}.

Record ThrottleClass : Type := mkThrottleClass {
  new_throttle : option string -> Throttle
}.

(** An entry of [throttle_handlers]: a dict read with [.get("class")] and
    [.get("rate")], each [None] when the key is missing. *)
Record ThrottleConf : Type := mkThrottleConf {
  conf_class : option ThrottleClass;
  conf_rate : option string
}.

(** An exception handler or a handler body, as a function of the world. *)
Definition Handler (A : Type) : Type := A -> Ambient -> Res Response * Ambient.

(** [current_app]: each setting is an attribute that may be absent. *)
Record App : Type := mkApp {
  AUTHENTICATION_CLASSES : option (list AuthenticatorClass);
  PERMISSION_CLASSES : option (list PermissionClass);
  THROTTLE_HANDLERS : option (list ThrottleConf);
  EXCEPTION_HANDLER : option (Handler Exc)
}.

(** The view object [self].  The first three fields are the class
    attributes; the last three are the attributes the methods assign, [None]
    while unassigned. *)
Record View : Type := mkView {
  authentication_classes : list AuthenticatorClass;
  permission_classes : list PermissionClass;
  throttle_handlers : list ThrottleConf;
  authenticators : option (list Authenticator);
  successful_authenticated : option bool;
  authenticator : option Authenticator
}.

(** A view as the host constructs it for a request: nothing assigned yet. *)
Definition new_view (ac : list AuthenticatorClass) (pc : list PermissionClass)
  (th : list ThrottleConf) : View :=
  mkView ac pc th None None None.

(** Calls that leave [views.py], with what they returned. *)
Inductive Event : Type :=
| EvAuthenticate (a : Authenticator) (r : AuthResult)
| EvAuthenticateHeader (a : Authenticator) (h : string)
| EvHasPermission (p : Permission) (b : bool)
| EvAllowRequest (t : Throttle) (b : bool)
| EvWait (t : Throttle) (d : Z)
| EvExceptionHandler (e : Exc)
| EvHandlerBody.

(** The machine state. *)
Record St : Type := mkSt {
  view : View;
  app : App;
  amb : Ambient;
  log : list Event
}.

(** ** The state-and-exception monad *)

Definition M (A : Type) : Type := St -> Res A * St.

Definition ret {A : Type} (a : A) : M A := fun s => (Ret a, s).

Definition raise {A : Type} (e : Exc) : M A := fun s => (Raise e, s).

Definition bind {A B : Type} (m : M A) (k : A -> M B) : M B :=
  fun s =>
    match m s with
    | (Ret a, s') => k a s'
    | (Raise e, s') => (Raise e, s')
    end.

Notation "x <- m ;; k" := (bind m (fun x => k))
  (at level 100, m at next level, right associativity).
Notation "m ;;; k" := (bind m (fun _ => k))
  (at level 100, right associativity).

(** Reading [self] and [current_app]. *)
Definition get_view : M View := fun s => (Ret (view s), s).
Definition get_app : M App := fun s => (Ret (app s), s).

(** Reading an attribute of [self] that may not have been assigned. *)
Definition self_attr {A : Type} (f : View -> option A) : M A :=
  fun s =>
    match f (view s) with
    | Some a => (Ret a, s)
    | None => (Raise new_AttributeError, s)
    end.

(** Assignments on [self] and on [g]. *)
Definition set_authenticators (l : list Authenticator) : M unit :=
  fun s =>
    let v := view s in
    (Ret tt,
     mkSt (mkView (authentication_classes v) (permission_classes v)
             (throttle_handlers v) (Some l) (successful_authenticated v)
             (authenticator v))
       (app s) (amb s) (log s)).

Definition set_successful_authenticated (b : bool) : M unit :=
  fun s =>
    let v := view s in
    (Ret tt,
     mkSt (mkView (authentication_classes v) (permission_classes v)
             (throttle_handlers v) (authenticators v) (Some b)
             (authenticator v))
       (app s) (amb s) (log s)).

Definition set_authenticator (a : Authenticator) : M unit :=
  fun s =>
    let v := view s in
    (Ret tt,
     mkSt (mkView (authentication_classes v) (permission_classes v)
             (throttle_handlers v) (authenticators v)
             (successful_authenticated v) (Some a))
       (app s) (amb s) (log s)).

Definition set_current_user (u : option User) : M unit :=
  fun s =>
    (Ret tt, mkSt (view s) (app s) (set_g_current_user (amb s) u) (log s)).

(** A call of a policy method: it runs on the world, and the call and its
    result are appended to the log. *)
Definition call {A : Type} (f : Ambient -> A * Ambient) (ev : A -> Event) : M A :=
  fun s =>
    let (a, w) := f (amb s) in
    (Ret a, mkSt (view s) (app s) w (log s ++ [ev a])).

(** A call of a handler: it runs on the world, the call is appended to the
    log, and its exception, if any, propagates. *)
Definition call_handler {A : Type} (h : Handler A) (x : A) (ev : Event) : M Response :=
  fun s =>
    let (r, w) := h x (amb s) in
    (r, mkSt (view s) (app s) w (log s ++ [ev])).

(** ** The methods of [APIView] *)

(** [get_authenticators] (lines 23-29). *)
Definition get_authenticators : M (list Authenticator) :=
  v <- get_view ;;
  a <- get_app ;;
  let global_auth_config := getattr (AUTHENTICATION_CLASSES a) [] in
  let l := map new_authenticator
             (py_or (authentication_classes v) global_auth_config) in
  set_authenticators l ;;;
  ret l.

(** [get_permissions] (lines 31-36). *)
Definition get_permissions : M (list Permission) :=
  v <- get_view ;;
  a <- get_app ;;
  let global_perm_config := getattr (PERMISSION_CLASSES a) [] in
  ret (map new_permission (py_or (permission_classes v) global_perm_config)).

(** The loop of [get_throttles] (lines 44-47): [throttle_class] is [None]
    when the entry has no ["class"], and calling it raises. *)
Fixpoint get_throttles_loop (confs : list ThrottleConf)
  (throttling_handlers : list Throttle) : M (list Throttle) :=
  match confs with
  | [] => ret throttling_handlers
  | throttle :: rest =>
      let throttle_class := conf_class throttle in
      let throttle_rate := conf_rate throttle in
      match throttle_class with
      | Some c =>
          get_throttles_loop rest
            (throttling_handlers ++ [new_throttle c throttle_rate])
      | None => raise new_TypeError
      end
  end.

(** [get_throttles] (lines 38-48). *)
Definition get_throttles : M (list Throttle) :=
  v <- get_view ;;
  a <- get_app ;;
  let global_thro_config := getattr (THROTTLE_HANDLERS a) [] in
  get_throttles_loop (py_or (throttle_handlers v) global_thro_config) [].

(** The [for] loop of [perform_authentication] (lines 52-64), with the
    statement after the loop as the case of the exhausted list. *)
Fixpoint perform_authentication_loop (l : list Authenticator) : M unit :=
  match l with
  | [] => set_current_user None
  | a :: rest =>
      r <- call (authenticate a) (EvAuthenticate a) ;;
      match r with
      | AuthRaise exc =>
          if is_APIException (exc_class exc) then
            h <- call (authenticate_header a) (EvAuthenticateHeader a) ;;
            raise (set_auth_header exc (Some h))
          else raise exc
      | AuthReturn (Some _) =>
          set_successful_authenticated true ;;;
          set_authenticator a ;;;
          ret tt
      | AuthReturn None => perform_authentication_loop rest
      end
  end.

(** [perform_authentication] (lines 50-64). *)
Definition perform_authentication : M unit :=
  set_successful_authenticated false ;;;
  l <- get_authenticators ;;
  perform_authentication_loop l.

(** [get_authenticate_header] (lines 100-106); a Python function that falls
    off its end returns [None]. *)
Definition get_authenticate_header : M (option string) :=
  l <- self_attr authenticators ;;
  match l with
  | a :: _ =>
      h <- call (authenticate_header a) (EvAuthenticateHeader a) ;;
      ret (Some h)
  | [] => ret None
  end.

(** [permission_denied] (lines 77-85).  [x and not y] reads [y] only when
    [x] is truthy. *)
Definition permission_denied (msg cod : option string) : M unit :=
  l <- self_attr authenticators ;;
  cond <- match l with
          | [] => ret false
          | _ :: _ =>
              b <- self_attr successful_authenticated ;;
              ret (negb b)
          end ;;
  if (cond : bool) then
    h <- get_authenticate_header ;;
    raise (set_auth_header new_NotAuthenticated h)
  else raise (new_PermissionDenied msg cod).

(** The [for] loop of [check_permissions] (lines 71-75). *)
Fixpoint check_permissions_loop (l : list Permission) : M unit :=
  match l with
  | [] => ret tt
  | p :: rest =>
      b <- call (has_permission p) (EvHasPermission p) ;;
      if negb b then
        permission_denied (message p) (code p) ;;;
        check_permissions_loop rest
      else check_permissions_loop rest
  end.

(** [check_permissions] (lines 66-75). *)
Definition check_permissions : M unit :=
  l <- get_permissions ;;
  check_permissions_loop l.

(** The [for] loop of [check_throttles] (lines 93-95). *)
Fixpoint check_throttles_loop (l : list Throttle)
  (throttle_durations : list Z) : M (list Z) :=
  match l with
  | [] => ret throttle_durations
  | t :: rest =>
      b <- call (allow_request t) (EvAllowRequest t) ;;
      if negb b then
        d <- call (wait t) (EvWait t) ;;
        check_throttles_loop rest (throttle_durations ++ [d])
      else check_throttles_loop rest throttle_durations
  end.

(** [check_throttles] (lines 87-98). *)
Definition check_throttles : M unit :=
  l <- get_throttles ;;
  throttle_durations <- check_throttles_loop l [] ;;
  match throttle_durations with
  | _ :: _ =>
      let duration := py_max throttle_durations in
      raise (new_Throttled duration)
  | [] => ret tt
  end.

(** [initial] (lines 18-21). *)
Definition initial : M unit :=
  perform_authentication ;;;
  check_permissions ;;;
  check_throttles.

(** [exceptions.exception_handler], the built-in handler, and
    [super().dispatch_request], the handler body of the view: both are
    outside [views.py]. *)
Variable exception_handler : Handler Exc.
Variable super_dispatch_request : Handler unit.

(** [handle_exception] (lines 108-114). *)
Definition handle_exception (exc : Exc) : M Response :=
  a <- get_app ;;
  let handler := getattr (EXCEPTION_HANDLER a) exception_handler in
  call_handler handler exc (EvExceptionHandler exc).

(** [dispatch_request] (lines 11-16): [try: self.initial()] with
    [except Exception as exc: return self.handle_exception(exc)]; every
    [Exc] is an [Exception].  The handler body runs outside the [try]. *)
Definition dispatch_request : M Response :=
  fun s =>
    match initial s with
    | (Raise exc, s') => handle_exception exc s'
    | (Ret _, s') => call_handler super_dispatch_request tt EvHandlerBody s'
    end.

(** ** Reading the log *)

(** The events a run appended: the log after it, without the log before. *)
Definition events_since (s s' : St) : list Event :=
  skipn (List.length (log s)) (log s').

(** The calls of [authenticate] among some events, with their results. *)
Fixpoint authenticate_calls (l : list Event) : list (Authenticator * AuthResult) :=
  match l with
  | [] => []
  | EvAuthenticate a r :: l' => (a, r) :: authenticate_calls l'
  | _ :: l' => authenticate_calls l'
  end.

(** The calls of [has_permission], with their results. *)
Fixpoint has_permission_calls (l : list Event) : list (Permission * bool) :=
  match l with
  | [] => []
  | EvHasPermission p b :: l' => (p, b) :: has_permission_calls l'
  | _ :: l' => has_permission_calls l'
  end.

(** The calls of [allow_request], with their results. *)
Fixpoint allow_request_calls (l : list Event) : list (Throttle * bool) :=
  match l with
  | [] => []
  | EvAllowRequest t b :: l' => (t, b) :: allow_request_calls l'
  | _ :: l' => allow_request_calls l'
  end.

(** The calls of [wait], with their results. *)
Fixpoint wait_calls (l : list Event) : list (Throttle * Z) :=
  match l with
  | [] => []
  | EvWait t d :: l' => (t, d) :: wait_calls l'
  | _ :: l' => wait_calls l'
  end.

(** How often the exception handler and the handler body were entered. *)
Fixpoint exception_handler_calls (l : list Event) : list Exc :=
  match l with
  | [] => []
  | EvExceptionHandler e :: l' => e :: exception_handler_calls l'
  | _ :: l' => exception_handler_calls l'
  end.

Fixpoint handler_body_calls (l : list Event) : nat :=
  match l with
  | [] => 0
  | EvHandlerBody :: l' => S (handler_body_calls l')
  | _ :: l' => handler_body_calls l'
  end.

(** ** Outcomes of the authentication loop *)

(** The three ways [perform_authentication_loop l] can end from [s]: an
    authenticator returned a tuple, the list was exhausted, or an
    authenticator raised. *)
Inductive auth_outcome (l : list Authenticator) (s : St) (r : Res unit) (s' : St) : Prop :=
| auth_success (pre post : list Authenticator) (a : Authenticator) (t : User * Auth) :
    l = pre ++ a :: post ->
    log s' = log s ++ map (fun x => EvAuthenticate x (AuthReturn None)) pre
                   ++ [EvAuthenticate a (AuthReturn (Some t))] ->
    r = Ret tt ->
    successful_authenticated (view s') = Some true ->
    authenticator (view s') = Some a ->
    authenticators (view s') = authenticators (view s) ->
    auth_outcome l s r s'
| auth_exhausted :
    log s' = log s ++ map (fun x => EvAuthenticate x (AuthReturn None)) l ->
    r = Ret tt ->
    view s' = view s ->
    g_current_user (amb s') = Some None ->
    auth_outcome l s r s'
| auth_raised (pre post : list Authenticator) (a : Authenticator) (e e' : Exc)
    (tail : list Event) :
    l = pre ++ a :: post ->
    log s' = log s ++ map (fun x => EvAuthenticate x (AuthReturn None)) pre
                   ++ EvAuthenticate a (AuthRaise e) :: tail ->
    (is_APIException (exc_class e) = true /\
     (exists h, tail = [EvAuthenticateHeader a h] /\ e' = set_auth_header e (Some h))
     \/ is_APIException (exc_class e) = false /\ tail = [] /\ e' = e) ->
    r = Raise e' ->
    view s' = view s ->
    auth_outcome l s r s'.

(** ** Runs of the authentication loop *)

(** The world after [authenticate()] of each authenticator of [l] ran, in
    order, from [w]. *)
Fixpoint consulted (l : list Authenticator) (w : Ambient) : Ambient :=
  match l with
  | [] => w
  | a :: l' => consulted l' (snd (authenticate a w))
  end.

(** Run in order from [w], [authenticate()] of every authenticator of [l]
    returns [None]. *)
Fixpoint all_return_none (l : list Authenticator) (w : Ambient) : Prop :=
  match l with
  | [] => True
  | a :: l' =>
      fst (authenticate a w) = AuthReturn None /\
      all_return_none l' (snd (authenticate a w))
  end.

(** The three ways [perform_authentication_loop l] can end from [s], with
    what [authenticate()] of each authenticator consulted did in the world
    it was called in: the authenticators before the first one that returns
    a tuple or raises all returned [None], and nothing after that one is
    consulted. *)
Inductive auth_run (l : list Authenticator) (s : St) (r : Res unit) (s' : St) : Prop :=
| run_success (pre post : list Authenticator) (a : Authenticator) (t : User * Auth) :
    l = pre ++ a :: post ->
    all_return_none pre (amb s) ->
    fst (authenticate a (consulted pre (amb s))) = AuthReturn (Some t) ->
    log s' = log s ++ map (fun x => EvAuthenticate x (AuthReturn None)) pre
                   ++ [EvAuthenticate a (AuthReturn (Some t))] ->
    r = Ret tt ->
    successful_authenticated (view s') = Some true ->
    authenticator (view s') = Some a ->
    auth_run l s r s'
| run_exhausted :
    all_return_none l (amb s) ->
    log s' = log s ++ map (fun x => EvAuthenticate x (AuthReturn None)) l ->
    r = Ret tt ->
    view s' = view s ->
    auth_run l s r s'
| run_raised (pre post : list Authenticator) (a : Authenticator) (e e' : Exc)
    (tail : list Event) :
    l = pre ++ a :: post ->
    all_return_none pre (amb s) ->
    fst (authenticate a (consulted pre (amb s))) = AuthRaise e ->
    log s' = log s ++ map (fun x => EvAuthenticate x (AuthReturn None)) pre
                   ++ EvAuthenticate a (AuthRaise e) :: tail ->
    authenticate_calls tail = [] ->
    r = Raise e' ->
    view s' = view s ->
    auth_run l s r s'.

(** ** Outcomes of the permission loop *)

(** The two ways [check_permissions_loop l] can end from [s]: every
    permission passed, or the first one that did not pass handed over to
    [permission_denied] in the state [s1] reached right after its call. *)
Inductive perm_outcome (l : list Permission) (s : St) (r : Res unit) (s' : St) : Prop :=
| perm_all_passed :
    log s' = log s ++ map (fun p => EvHasPermission p true) l ->
    Forall (fun p => exists w, fst (has_permission p w) = true) l ->
    r = Ret tt ->
    view s' = view s ->
    perm_outcome l s r s'
| perm_denied (pre post : list Permission) (p : Permission) (s1 : St) (e : Exc) :
    l = pre ++ p :: post ->
    log s1 = log s ++ map (fun q => EvHasPermission q true) pre
                   ++ [EvHasPermission p false] ->
    Forall (fun q => exists w, fst (has_permission q w) = true) pre ->
    (exists w, fst (has_permission p w) = false) ->
    view s1 = view s ->
    app s1 = app s ->
    permission_denied (message p) (code p) s1 = (r, s') ->
    r = Raise e ->
    perm_outcome l s r s'.

(** ** Traces of the throttle loop *)

(** [throttle_trace l d ds]: the events [d] ask every throttle of [l] once,
    in order, whether it allows the request; a throttle that does not is
    asked for its wait before the next throttle is consulted; [ds] are the
    waits so obtained, in order. *)
Inductive throttle_trace : list Throttle -> list Event -> list Z -> Prop :=
| trace_done : throttle_trace [] [] []
| trace_allowed (t : Throttle) (l : list Throttle) (d : list Event) (ds : list Z) :
    throttle_trace l d ds ->
    throttle_trace (t :: l) (EvAllowRequest t true :: d) ds
| trace_denied (t : Throttle) (w : Z) (l : list Throttle) (d : list Event) (ds : list Z) :
    throttle_trace l d ds ->
    throttle_trace (t :: l) (EvAllowRequest t false :: EvWait t w :: d) (w :: ds).

(** The calls of [allow_request] that returned false. *)
Definition denials (d : list Event) : list (Throttle * bool) :=
  filter (fun c => negb (snd c)) (allow_request_calls d).

(** An [authenticate] call that returned a tuple. *)
Definition succeeded (c : Authenticator * AuthResult) : bool :=
  match snd c with
  | AuthReturn (Some _) => true
  | _ => false
  end.

(** ** What the gate leaves alone *)

(** The events of the three policy steps: everything but the two handlers. *)
Definition policy_event (ev : Event) : bool :=
  match ev with
  | EvExceptionHandler _ | EvHandlerBody => false
  | _ => true
  end.

(** [current_app] and the class attributes of the view are only read. *)
Definition same_config (s s' : St) : Prop :=
  app s' = app s /\
  authentication_classes (view s') = authentication_classes (view s) /\
  permission_classes (view s') = permission_classes (view s) /\
  throttle_handlers (view s') = throttle_handlers (view s).

(** A run of policy code from [s] to [s']: the configuration is untouched
    and the log grew by policy events only. *)
Definition gate_step (s s' : St) : Prop :=
  same_config s s' /\
  exists d : list Event, log s' = log s ++ d /\ forallb policy_event d = true.

(** [m] is policy code. *)
Definition frames {A : Type} (m : M A) : Prop :=
  forall s : St, gate_step s (snd (m s)).

(** ** The events of each step *)

(** What the authentication step may log. *)
Definition authentication_event (ev : Event) : bool :=
  match ev with
  | EvAuthenticate _ _ | EvAuthenticateHeader _ _ => true
  | _ => false
  end.

(** What the permission step may log: the permissions asked, and the header
    asked of an authenticator when a denial is escalated. *)
Definition permission_event (ev : Event) : bool :=
  match ev with
  | EvHasPermission _ _ | EvAuthenticateHeader _ _ => true
  | _ => false
  end.

(** What the throttle step may log. *)
Definition throttle_event (ev : Event) : bool :=
  match ev with
  | EvAllowRequest _ _ | EvWait _ _ => true
  | _ => false
  end.

(** [m] appends to the log, and only events that [P] accepts. *)
Definition logs_only {A : Type} (P : Event -> bool) (m : M A) : Prop :=
  forall s : St,
  exists d : list Event,
    log (snd (m s)) = log s ++ d /\ forallb P d = true.

(** What a well-formed entry of [throttle_handlers] builds. *)
Definition built_from (c : ThrottleConf) (t : Throttle) : Prop :=
  exists cls : ThrottleClass,
    conf_class c = Some cls /\ t = new_throttle cls (conf_rate c).

(** ** Resolution of a policy list *)

(** [result] is what [used] makes of the view-level list when that list is
    non-empty, and of the process-wide default (the empty list when the
    setting is absent) when it is empty. *)
Definition resolves_to {A B : Type} (view_level : list A)
  (default : option (list A)) (used : list A -> B) (result : B) : Prop :=
  (view_level <> [] -> result = used view_level) /\
  (view_level = [] -> result = used (getattr default [])).

(** The host replaces the settings of the application between two calls. *)
Definition reconfigure (s : St) (a : App) : St :=
  mkSt (view s) a (amb s) (log s).

(** ** Sample policies and requests *)

(** A method that returns [a] and leaves the world alone. *)
Definition returning {A : Type} (a : A) : Ambient -> A * Ambient :=
  fun w => (a, w).

(** A handler that returns the response [r]. *)
Definition responding {A : Type} (r : Response) : Handler A :=
  fun _ w => (Ret r, w).

Definition FailingAuth : AuthenticatorClass :=
  mkAuthenticatorClass
    (mkAuthenticator (returning (AuthReturn None)) (returning "Basic"%string)).

Definition PassingAuth (u : User) (k : Auth) : AuthenticatorClass :=
  mkAuthenticatorClass
    (mkAuthenticator (returning (AuthReturn (Some (u, k))))
       (returning "Token"%string)).

Definition AlwaysAllow : PermissionClass :=
  mkPermissionClass (mkPermission (returning true) None None).

Definition AlwaysDeny : PermissionClass :=
  mkPermissionClass
    (mkPermission (returning false) (Some "denied"%string)
       (Some "permission_denied"%string)).

Definition FixedThrottle (allow : bool) (w : Z) : ThrottleClass :=
  mkThrottleClass (fun _ => mkThrottle (returning allow) (returning w)).

Definition throttle_conf (c : ThrottleClass) (rate : string) : ThrottleConf :=
  mkThrottleConf (Some c) (Some rate).

(** An application with no setting at all. *)
Definition no_settings : App := mkApp None None None None.

(** The state in which the host calls [dispatch_request]: a new view, an
    empty [g], an empty log. *)
Definition request (ac : list AuthenticatorClass) (pc : list PermissionClass)
  (th : list ThrottleConf) (a : App) (w : World) : St :=
  mkSt (new_view ac pc th) a (mkAmbient None w) [].

(** Three authenticators, the second of which succeeds. *)
Definition sample_authentication (w : World) (u : User) (k : Auth) : St :=
  request [FailingAuth; PassingAuth u k; FailingAuth] [] [] no_settings w.

(** Two authenticators, neither of which succeeds. *)
Definition sample_unauthenticated (w : World) : St :=
  request [FailingAuth; FailingAuth] [] [] no_settings w.

(** One authenticator that fails and three permissions, the second of which
    denies. *)
Definition sample_denial (w : World) : St :=
  request [FailingAuth] [AlwaysAllow; AlwaysDeny; AlwaysAllow] [] no_settings w.

(** Three throttles: the first denies and asks for 5, the second allows, the
    third denies and asks for 2. *)
Definition sample_throttles (w : World) : St :=
  request [] []
    [throttle_conf (FixedThrottle false 5) "1/s";
     throttle_conf (FixedThrottle true 0) "9/s";
     throttle_conf (FixedThrottle false 2) "3/s"]
    no_settings w.

(** Scenario D of the specification: the view sets its permission list to
    the empty list, the process-wide default denies. *)
Definition scenario_D (w : World) : St :=
  request [] [] [] (mkApp None (Some [AlwaysDeny]) None None) w.

(** Two throttles, the second entry without a ["class"]. *)
Definition sample_malformed_throttles (w : World) : St :=
  request [] []
    [throttle_conf (FixedThrottle false 5) "1/s";
     mkThrottleConf None (Some "2/s"%string)]
    no_settings w.

(** One authenticator that raises [AuthenticationFailed]. *)
Definition RaisingAuth : AuthenticatorClass :=
  mkAuthenticatorClass
    (mkAuthenticator
       (returning (AuthRaise (mkExc AuthenticationFailed
                                (Some "bad token"%string) None None None)))
       (returning "Bearer"%string)).

Definition sample_bad_credentials (w : World) : St :=
  request [FailingAuth; RaisingAuth; FailingAuth] [AlwaysDeny] [] no_settings w.

(** A request that passes all three steps. *)
Definition sample_passing (w : World) (u : User) (k : Auth) : St :=
  request [FailingAuth; PassingAuth u k] [AlwaysAllow]
    [throttle_conf (FixedThrottle true 0) "9/s"] no_settings w.

(** A handler body that raises. *)
Definition failing_body : Handler unit :=
  fun _ w => (Raise (mkExc OtherException None None None None), w).

(** ** Basic facts about the log *)

Lemma events_since_app (s s' : St) (d : list Event) :
  log s' = log s ++ d -> events_since s s' = d.
Proof.
  intros H. unfold events_since. rewrite H.
  rewrite skipn_app, skipn_all, Nat.sub_diag. reflexivity.
Qed.

Lemma authenticate_calls_app (l1 l2 : list Event) :
  authenticate_calls (l1 ++ l2) = authenticate_calls l1 ++ authenticate_calls l2.
Proof.
  induction l1 as [|ev l1 IH]; simpl; [reflexivity|].
  destruct ev; simpl; rewrite ?IH; reflexivity.
Qed.

Lemma authenticate_calls_map (l : list Authenticator) (r : AuthResult) :
  authenticate_calls (map (fun x => EvAuthenticate x r) l) = map (fun x => (x, r)) l.
Proof.
  induction l as [|a l IH]; simpl; [reflexivity|]. rewrite IH. reflexivity.
Qed.

(** ** The authentication loop *)

Lemma bind_call {A B : Type} (f : Ambient -> A * Ambient) (ev : A -> Event)
  (k : A -> M B) (s : St) :
  bind (call f ev) k s =
  k (fst (f (amb s)))
    (mkSt (view s) (app s) (snd (f (amb s))) (log s ++ [ev (fst (f (amb s)))])).
Proof.
  unfold bind, call. destruct (f (amb s)) as [a w]. reflexivity.
Qed.

Lemma perform_authentication_loop_outcome (l : list Authenticator) :
  forall (s : St) (r : Res unit) (s' : St),
    perform_authentication_loop l s = (r, s') -> auth_outcome l s r s'.
Proof.
  induction l as [|a rest IH]; intros s r s' H.
  - simpl in H. injection H as <- <-.
    apply auth_exhausted; simpl; auto.
    rewrite app_nil_r. reflexivity.
  - cbn [perform_authentication_loop] in H. rewrite bind_call in H.
    destruct (authenticate a (amb s)) as [[[t|]|e] w] eqn:E; cbn [fst snd] in H.
    + injection H as <- <-.
      apply (auth_success _ _ _ _ [] rest a t); simpl; auto.
    + apply IH in H.
      destruct H as [pre post b t Hl Hlog Hr Hs Ha Hk
                    | Hlog Hr Hv Hg
                    | pre post b e e' tail Hl Hlog He Hr Hv];
        cbn [log view] in *.
      * apply (auth_success _ _ _ _ (a :: pre) post b t); auto.
        -- simpl. rewrite Hl. reflexivity.
        -- rewrite Hlog. simpl. rewrite <- app_assoc. reflexivity.
      * apply auth_exhausted; auto.
        rewrite Hlog. simpl. rewrite <- app_assoc. reflexivity.
      * apply (auth_raised _ _ _ _ (a :: pre) post b e e' tail); auto.
        -- simpl. rewrite Hl. reflexivity.
        -- rewrite Hlog. simpl. rewrite <- app_assoc. reflexivity.
    + destruct (is_APIException (exc_class e)) eqn:Hapi.
      * rewrite bind_call in H. cbn [amb log view app] in H.
        injection H as <- <-.
        apply (auth_raised _ _ _ _ [] rest a e
                 (set_auth_header e (Some (fst (authenticate_header a w))))
                 [EvAuthenticateHeader a (fst (authenticate_header a w))]);
          simpl; auto.
        -- rewrite <- app_assoc. reflexivity.
        -- left. split; [assumption|]. eexists. split; reflexivity.
      * injection H as <- <-.
        apply (auth_raised _ _ _ _ [] rest a e e []); simpl; auto.
Qed.

(** ** Frame lemmas *)

Lemma gate_step_refl (s : St) : gate_step s s.
Proof.
  split; [repeat split|]. exists []. rewrite app_nil_r. split; reflexivity.
Qed.

Lemma gate_step_trans (s1 s2 s3 : St) :
  gate_step s1 s2 -> gate_step s2 s3 -> gate_step s1 s3.
Proof.
  intros [[Ha [Hb [Hc Hd]]] [d1 [Hl1 Hp1]]] [[Ha' [Hb' [Hc' Hd']]] [d2 [Hl2 Hp2]]].
  split.
  - repeat split; congruence.
  - exists (d1 ++ d2). split.
    + rewrite Hl2, Hl1, app_assoc. reflexivity.
    + rewrite forallb_app, Hp1, Hp2. reflexivity.
Qed.

Lemma frames_ret {A : Type} (a : A) : frames (ret a).
Proof. intros s. apply gate_step_refl. Qed.

Lemma frames_raise {A : Type} (e : Exc) : frames (@raise A e).
Proof. intros s. apply gate_step_refl. Qed.

Lemma frames_bind {A B : Type} (m : M A) (k : A -> M B) :
  frames m -> (forall a, frames (k a)) -> frames (bind m k).
Proof.
  intros Hm Hk s. unfold bind. specialize (Hm s).
  destruct (m s) as [[a|e] s1]; simpl in *.
  - eapply gate_step_trans; [exact Hm|apply Hk].
  - exact Hm.
Qed.

Lemma frames_call {A : Type} (f : Ambient -> A * Ambient) (ev : A -> Event) :
  (forall a, policy_event (ev a) = true) -> frames (call f ev).
Proof.
  intros Hev s. unfold call. destruct (f (amb s)) as [a w]. simpl.
  split; [repeat split|]. exists [ev a]. simpl. rewrite Hev. split; reflexivity.
Qed.

Lemma frames_get_view : frames get_view.
Proof. intros s. apply gate_step_refl. Qed.

Lemma frames_get_app : frames get_app.
Proof. intros s. apply gate_step_refl. Qed.

Lemma frames_self_attr {A : Type} (f : View -> option A) : frames (self_attr f).
Proof.
  intros s. unfold self_attr. destruct (f (view s)); apply gate_step_refl.
Qed.

Lemma frames_setter (m : M unit) :
  (forall s, same_config s (snd (m s)) /\ log (snd (m s)) = log s) -> frames m.
Proof.
  intros H s. destruct (H s) as [Hc Hl]. split; [exact Hc|].
  exists []. rewrite app_nil_r. split; [exact Hl|reflexivity].
Qed.

Lemma frames_set_authenticators (l : list Authenticator) :
  frames (set_authenticators l).
Proof. apply frames_setter. intros s. repeat split. Qed.

Lemma frames_set_successful_authenticated (b : bool) :
  frames (set_successful_authenticated b).
Proof. apply frames_setter. intros s. repeat split. Qed.

Lemma frames_set_authenticator (a : Authenticator) :
  frames (set_authenticator a).
Proof. apply frames_setter. intros s. repeat split. Qed.

Lemma frames_set_current_user (u : option User) : frames (set_current_user u).
Proof. apply frames_setter. intros s. repeat split. Qed.

Create HintDb frame discriminated.

#[local] Hint Resolve frames_ret frames_raise frames_get_view frames_get_app
  frames_self_attr frames_set_authenticators
  frames_set_successful_authenticated frames_set_authenticator
  frames_set_current_user : frame.

Ltac frame_step :=
  first
    [ apply frames_bind; [|intros ?]
    | apply frames_call; intros ?; reflexivity
    | solve [auto with frame] ].

Ltac frame := repeat frame_step.

Lemma frames_get_authenticators : frames get_authenticators.
Proof. unfold get_authenticators. frame. Qed.

Lemma frames_get_permissions : frames get_permissions.
Proof. unfold get_permissions. frame. Qed.

Lemma frames_get_throttles_loop (l : list ThrottleConf) :
  forall acc, frames (get_throttles_loop l acc).
Proof.
  induction l as [|c l IH]; intros acc; simpl.
  - frame.
  - destruct (conf_class c); [apply IH|frame].
Qed.

Lemma frames_get_throttles : frames get_throttles.
Proof.
  unfold get_throttles. frame. apply frames_get_throttles_loop.
Qed.

Lemma frames_perform_authentication_loop (l : list Authenticator) :
  frames (perform_authentication_loop l).
Proof.
  induction l as [|a l IH]; simpl.
  - frame.
  - frame_step; [frame|].
    destruct a0 as [[t|]|e]; [frame|exact IH|].
    destruct (is_APIException (exc_class e)); frame.
Qed.

Lemma frames_perform_authentication : frames perform_authentication.
Proof.
  unfold perform_authentication. frame_step; [frame|].
  frame_step; [apply frames_get_authenticators|].
  apply frames_perform_authentication_loop.
Qed.

Lemma frames_get_authenticate_header : frames get_authenticate_header.
Proof.
  unfold get_authenticate_header. frame_step; [frame|].
  destruct a as [|a l]; frame.
Qed.

Lemma frames_permission_denied (msg cod : option string) :
  frames (permission_denied msg cod).
Proof.
  unfold permission_denied. frame_step; [frame|].
  frame_step.
  - destruct a as [|a l]; frame.
  - destruct a0; [|frame].
    frame_step; [apply frames_get_authenticate_header|frame].
Qed.

Lemma frames_check_permissions_loop (l : list Permission) :
  frames (check_permissions_loop l).
Proof.
  induction l as [|p l IH]; simpl.
  - frame.
  - frame_step; [frame|].
    destruct (negb a); [|exact IH].
    frame_step; [apply frames_permission_denied|exact IH].
Qed.

Lemma frames_check_permissions : frames check_permissions.
Proof.
  unfold check_permissions. frame_step; [apply frames_get_permissions|].
  apply frames_check_permissions_loop.
Qed.

Lemma frames_check_throttles_loop (l : list Throttle) :
  forall acc, frames (check_throttles_loop l acc).
Proof.
  induction l as [|t l IH]; intros acc; simpl.
  - frame.
  - frame_step; [frame|].
    destruct (negb a); [|apply IH].
    frame_step; [frame|apply IH].
Qed.

Lemma frames_check_throttles : frames check_throttles.
Proof.
  unfold check_throttles. frame_step; [apply frames_get_throttles|].
  frame_step; [apply frames_check_throttles_loop|].
  destruct a0; frame.
Qed.

Lemma frames_initial : frames initial.
Proof.
  unfold initial.
  frame_step; [apply frames_perform_authentication|].
  frame_step; [apply frames_check_permissions|].
  apply frames_check_throttles.
Qed.

(** ** Permission denial *)

(** [permission_denied], read off by cases on what [self] holds. *)
Lemma permission_denied_spec (msg cod : option string) (s : St) :
  permission_denied msg cod s =
  match authenticators (view s) with
  | None => (Raise new_AttributeError, s)
  | Some [] => (Raise (new_PermissionDenied msg cod), s)
  | Some (a :: _) =>
      match successful_authenticated (view s) with
      | None => (Raise new_AttributeError, s)
      | Some true => (Raise (new_PermissionDenied msg cod), s)
      | Some false =>
          let h := fst (authenticate_header a (amb s)) in
          (Raise (set_auth_header new_NotAuthenticated (Some h)),
           mkSt (view s) (app s) (snd (authenticate_header a (amb s)))
             (log s ++ [EvAuthenticateHeader a h]))
      end
  end.
Proof.
  unfold permission_denied, bind, self_attr.
  destruct (authenticators (view s)) as [[|a l]|] eqn:Ha; try reflexivity.
  destruct (successful_authenticated (view s)) as [[|]|] eqn:Hs; try reflexivity.
  simpl. unfold get_authenticate_header, bind, self_attr, call. rewrite Ha.
  destruct (authenticate_header a (amb s)) as [h w]. reflexivity.
Qed.

Lemma permission_denied_raises (msg cod : option string) (s : St) :
  exists e : Exc, fst (permission_denied msg cod s) = Raise e.
Proof.
  rewrite permission_denied_spec.
  destruct (authenticators (view s)) as [[|a l]|]; try (eexists; reflexivity).
  destruct (successful_authenticated (view s)) as [[|]|]; eexists; reflexivity.
Qed.

(** [permission_denied] calls no permission and assigns nothing on [self]. *)
Lemma permission_denied_effect (msg cod : option string) (s : St) :
  view (snd (permission_denied msg cod s)) = view s /\
  exists d : list Event,
    log (snd (permission_denied msg cod s)) = log s ++ d /\
    has_permission_calls d = [].
Proof.
  rewrite permission_denied_spec.
  destruct (authenticators (view s)) as [[|a l]|];
    try (split; [reflexivity|exists []; rewrite app_nil_r; split; reflexivity]).
  destruct (successful_authenticated (view s)) as [[|]|];
    try (split; [reflexivity|exists []; rewrite app_nil_r; split; reflexivity]).
  split; [reflexivity|]. eexists. split; reflexivity.
Qed.

Lemma has_permission_calls_app (l1 l2 : list Event) :
  has_permission_calls (l1 ++ l2) = has_permission_calls l1 ++ has_permission_calls l2.
Proof.
  induction l1 as [|ev l1 IH]; simpl; [reflexivity|].
  destruct ev; simpl; rewrite ?IH; reflexivity.
Qed.

Lemma has_permission_calls_map (l : list Permission) (b : bool) :
  has_permission_calls (map (fun p => EvHasPermission p b) l) = map (fun p => (p, b)) l.
Proof.
  induction l as [|p l IH]; simpl; [reflexivity|]. rewrite IH. reflexivity.
Qed.

(** ** The permission loop *)

Lemma check_permissions_loop_outcome (l : list Permission) :
  forall (s : St) (r : Res unit) (s' : St),
    check_permissions_loop l s = (r, s') -> perm_outcome l s r s'.
Proof.
  induction l as [|p rest IH]; intros s r s' H.
  - simpl in H. injection H as <- <-.
    apply perm_all_passed; simpl; auto. rewrite app_nil_r. reflexivity.
  - cbn [check_permissions_loop] in H. rewrite bind_call in H.
    destruct (has_permission p (amb s)) as [[|] w] eqn:E; cbn [fst snd negb] in H.
    + assert (Hp : exists w0, fst (has_permission p w0) = true)
        by (exists (amb s); rewrite E; reflexivity).
      apply IH in H.
      destruct H as [Hlog Hall Hr Hv
                    | pre post q s1 e Hl Hlog Hall Hq Hv Ha Hd Hr];
        cbn [log view app] in *.
      * apply perm_all_passed; auto.
        rewrite Hlog. simpl. rewrite <- app_assoc. reflexivity.
      * apply (perm_denied _ _ _ _ (p :: pre) post q s1 e); auto.
        -- simpl. rewrite Hl. reflexivity.
        -- rewrite Hlog. simpl. rewrite <- app_assoc. reflexivity.
    + set (s1 := mkSt (view s) (app s) w (log s ++ [EvHasPermission p false])) in *.
      destruct (permission_denied_raises (message p) (code p) s1) as [e He].
      unfold bind in H.
      destruct (permission_denied (message p) (code p) s1) as [r1 s2] eqn:Hd.
      simpl in He. subst r1. injection H as <- <-.
      apply (perm_denied _ _ _ _ [] rest p s1 e); simpl; auto.
      exists (amb s). rewrite E. reflexivity.
Qed.

(** ** The throttle loop *)

Lemma throttle_trace_calls (l : list Throttle) (d : list Event) (ds : list Z) :
  throttle_trace l d ds ->
  map fst (allow_request_calls d) = l /\
  map fst (wait_calls d) = map fst (denials d) /\
  map snd (wait_calls d) = ds /\
  exception_handler_calls d = [] /\
  handler_body_calls d = 0.
Proof.
  unfold denials.
  induction 1 as [|t l d ds _ [IH1 [IH2 [IH3 [IH4 IH5]]]]
                 |t w l d ds _ [IH1 [IH2 [IH3 [IH4 IH5]]]]]; simpl.
  - repeat split.
  - rewrite IH1. repeat split; assumption.
  - rewrite IH1, IH2, IH3. repeat split; assumption.
Qed.

Lemma check_throttles_loop_trace (l : list Throttle) :
  forall (acc : list Z) (s : St) (r : Res (list Z)) (s' : St),
    check_throttles_loop l acc s = (r, s') ->
    exists (d : list Event) (ds : list Z),
      throttle_trace l d ds /\
      log s' = log s ++ d /\
      r = Ret (acc ++ ds) /\
      view s' = view s.
Proof.
  induction l as [|t rest IH]; intros acc s r s' H.
  - simpl in H. injection H as <- <-. exists [], [].
    rewrite !app_nil_r. repeat split. constructor.
  - cbn [check_throttles_loop] in H. rewrite bind_call in H.
    destruct (allow_request t (amb s)) as [[|] w] eqn:E; cbn [fst snd negb] in H.
    + apply IH in H. destruct H as [d [ds [Ht [Hlog [Hr Hv]]]]].
      cbn [log view] in *.
      exists (EvAllowRequest t true :: d), ds. repeat split; auto.
      * constructor. exact Ht.
      * rewrite Hlog, <- app_assoc. reflexivity.
    + rewrite bind_call in H. cbn [amb log view app] in H.
      apply IH in H. destruct H as [d [ds [Ht [Hlog [Hr Hv]]]]].
      cbn [log view] in *.
      exists (EvAllowRequest t false :: EvWait t (fst (wait t w)) :: d),
        (fst (wait t w) :: ds).
      repeat split; auto.
      * constructor. exact Ht.
      * rewrite Hlog, <- !app_assoc. reflexivity.
      * rewrite Hr, <- app_assoc. reflexivity.
Qed.

(** Python's [max] of a non-empty list is one of its elements and bounds
    them all. *)
Lemma fold_left_max_spec (ds : list Z) :
  forall d : Z,
    In (fold_left Z.max ds d) (d :: ds) /\
    Forall (fun w => (w <= fold_left Z.max ds d)%Z) (d :: ds).
Proof.
  induction ds as [|x ds IH]; intros d; simpl.
  - split; [left; reflexivity|]. constructor; [lia|constructor].
  - destruct (IH (Z.max d x)) as [Hin Hall]. simpl in Hin.
    inversion Hall as [|y ys Hm Hrest]; subst. split.
    + destruct Hin as [Hin|Hin]; [|right; right; exact Hin].
      rewrite <- Hin.
      destruct (Z.max_spec d x) as [[_ Hx]|[_ Hx]]; rewrite Hx; auto.
    + constructor; [lia|]. constructor; [lia|exact Hrest].
Qed.

Lemma py_max_spec (ds : list Z) :
  ds <> [] ->
  exists m : Z,
    py_max ds = Some m /\ In m ds /\ Forall (fun w => (w <= m)%Z) ds.
Proof.
  destruct ds as [|d ds]; [congruence|]. intros _.
  exists (fold_left Z.max ds d). split; [reflexivity|].
  apply fold_left_max_spec.
Qed.

(** * Properties *)

(** ** Authentication *)

(** [get_authenticators] always returns, and stores what it returns. *)
Lemma get_authenticators_spec (s : St) :
  exists l : list Authenticator,
    get_authenticators s =
    (Ret l,
     mkSt (mkView (authentication_classes (view s)) (permission_classes (view s))
             (throttle_handlers (view s)) (Some l)
             (successful_authenticated (view s)) (authenticator (view s)))
       (app s) (amb s) (log s)).
Proof.
  exists (map new_authenticator
            (py_or (authentication_classes (view s))
               (getattr (AUTHENTICATION_CLASSES (app s)) []))).
  reflexivity.
Qed.

(** [perform_authentication] is the loop, run on the resolved list from the
    state in which the flag is false and the list is stored. *)
Lemma perform_authentication_outcome (s : St) (auths : list Authenticator) :
  fst (get_authenticators s) = Ret auths ->
  auth_outcome auths
    (mkSt (mkView (authentication_classes (view s)) (permission_classes (view s))
             (throttle_handlers (view s)) (Some auths) (Some false)
             (authenticator (view s)))
       (app s) (amb s) (log s))
    (fst (perform_authentication s)) (snd (perform_authentication s)).
Proof.
  intros H. apply perform_authentication_loop_outcome.
  unfold get_authenticators, bind, get_view, get_app, set_authenticators, ret in H.
  simpl in H. injection H as H. subst auths.
  apply surjective_pairing.
Qed.

Lemma filter_succeeded_none (l : list Authenticator) :
  filter succeeded (map (fun x => (x, AuthReturn None)) l) = [].
Proof. induction l as [|a l IH]; simpl; auto. Qed.

Lemma authenticate_calls_tail (a : Authenticator) (e e' : Exc) (tail : list Event) :
  (is_APIException (exc_class e) = true /\
   (exists h, tail = [EvAuthenticateHeader a h] /\ e' = set_auth_header e (Some h))
   \/ is_APIException (exc_class e) = false /\ tail = [] /\ e' = e) ->
  authenticate_calls tail = [].
Proof.
  intros [[_ [h [-> _]]]|[_ [-> _]]]; reflexivity.
Qed.

(** The [authenticate] calls of a run, by outcome. *)
Lemma auth_outcome_calls (l : list Authenticator) (s s' : St) (r : Res unit) :
  auth_outcome l s r s' ->
  (exists pre post a t,
      l = pre ++ a :: post /\
      authenticate_calls (events_since s s') =
        map (fun x => (x, AuthReturn None)) pre ++ [(a, AuthReturn (Some t))] /\
      authenticator (view s') = Some a /\
      successful_authenticated (view s') = Some true /\
      r = Ret tt)
  \/ (authenticate_calls (events_since s s') = map (fun x => (x, AuthReturn None)) l /\
      view s' = view s /\ r = Ret tt /\ g_current_user (amb s') = Some None)
  \/ (exists pre post a e e',
      l = pre ++ a :: post /\
      authenticate_calls (events_since s s') =
        map (fun x => (x, AuthReturn None)) pre ++ [(a, AuthRaise e)] /\
      view s' = view s /\ r = Raise e').
Proof.
  intros [pre post a t Hl Hlog Hr Hs Ha Hk
         | Hlog Hr Hv Hg
         | pre post a e e' tail Hl Hlog He Hr Hv].
  - left. exists pre, post, a, t. repeat split; auto.
    rewrite (events_since_app _ _ _ Hlog), authenticate_calls_app,
      authenticate_calls_map. reflexivity.
  - right. left. repeat split; auto.
    rewrite (events_since_app _ _ _ Hlog), authenticate_calls_map. reflexivity.
  - right. right. exists pre, post, a, e, e'. repeat split; auto.
    rewrite (events_since_app _ _ _ Hlog), authenticate_calls_app,
      authenticate_calls_map. simpl.
    rewrite (authenticate_calls_tail _ _ _ _ He). reflexivity.
Qed.

(** The loop, with what each call did. *)
Lemma perform_authentication_loop_run (l : list Authenticator) :
  forall (s : St) (r : Res unit) (s' : St),
    perform_authentication_loop l s = (r, s') -> auth_run l s r s'.
Proof.
  induction l as [|a rest IH]; intros s r s' H.
  - simpl in H. injection H as <- <-.
    apply run_exhausted; simpl; auto. rewrite app_nil_r. reflexivity.
  - cbn [perform_authentication_loop] in H. rewrite bind_call in H.
    destruct (authenticate a (amb s)) as [[[t|]|e] w] eqn:E; cbn [fst snd] in H.
    + injection H as <- <-.
      apply (run_success _ _ _ _ [] rest a t); simpl; auto.
      rewrite E. reflexivity.
    + apply IH in H.
      destruct H as [pre post b t Hl Hn Hb Hlog Hr Hs Ha
                    | Hn Hlog Hr Hv
                    | pre post b e e' tail Hl Hn Hb Hlog Ht Hr Hv];
        cbn [log view amb] in *.
      * apply (run_success _ _ _ _ (a :: pre) post b t); auto.
        -- simpl. rewrite Hl. reflexivity.
        -- simpl. rewrite E. split; [reflexivity|exact Hn].
        -- simpl. rewrite E. exact Hb.
        -- rewrite Hlog. simpl. rewrite <- app_assoc. reflexivity.
      * apply run_exhausted; auto.
        -- simpl. rewrite E. split; [reflexivity|exact Hn].
        -- rewrite Hlog. simpl. rewrite <- app_assoc. reflexivity.
      * apply (run_raised _ _ _ _ (a :: pre) post b e e' tail); auto.
        -- simpl. rewrite Hl. reflexivity.
        -- simpl. rewrite E. split; [reflexivity|exact Hn].
        -- simpl. rewrite E. exact Hb.
        -- rewrite Hlog. simpl. rewrite <- app_assoc. reflexivity.
    + destruct (is_APIException (exc_class e)) eqn:Hapi.
      * rewrite bind_call in H. cbn [amb log view app] in H.
        injection H as <- <-.
        apply (run_raised _ _ _ _ [] rest a e
                 (set_auth_header e (Some (fst (authenticate_header a w))))
                 [EvAuthenticateHeader a (fst (authenticate_header a w))]);
          simpl; auto.
        -- rewrite E. reflexivity.
        -- rewrite <- app_assoc. reflexivity.
      * injection H as <- <-.
        apply (run_raised _ _ _ _ [] rest a e e []); simpl; auto.
        rewrite E. reflexivity.
Qed.

(** C1.  Whatever the sequence of configured authenticators,
    [perform_authentication] consults them in order, each in the world the
    calls before it left, and ends in one of three ways.  (1) Some
    authenticator [a] returns a tuple: every authenticator before [a]
    returned [None], exactly the authenticators up to [a] were consulted,
    [a] is the one marked active, and nothing after [a] is consulted.  (2)
    Every authenticator of the sequence was consulted and returned [None]:
    none is marked.  (3) Some authenticator raises: every authenticator
    before it returned [None], nothing after it is consulted, and none is
    marked.  So at most one authenticator is marked, and it is the first one
    in order whose [authenticate()] returns non-none. *)
Theorem perform_authentication_first_success (s : St) (auths : list Authenticator) :
  fst (get_authenticators s) = Ret auths ->
  let r := fst (perform_authentication s) in
  let s' := snd (perform_authentication s) in
  (exists pre post a t,
      auths = pre ++ a :: post /\
      all_return_none pre (amb s) /\
      fst (authenticate a (consulted pre (amb s))) = AuthReturn (Some t) /\
      events_since s s' =
        map (fun x => EvAuthenticate x (AuthReturn None)) pre
        ++ [EvAuthenticate a (AuthReturn (Some t))] /\
      r = Ret tt /\
      successful_authenticated (view s') = Some true /\
      authenticator (view s') = Some a)
  \/
  (all_return_none auths (amb s) /\
   events_since s s' = map (fun x => EvAuthenticate x (AuthReturn None)) auths /\
   r = Ret tt /\
   successful_authenticated (view s') = Some false /\
   authenticator (view s') = authenticator (view s))
  \/
  (exists pre post a e tail,
      auths = pre ++ a :: post /\
      all_return_none pre (amb s) /\
      fst (authenticate a (consulted pre (amb s))) = AuthRaise e /\
      events_since s s' =
        map (fun x => EvAuthenticate x (AuthReturn None)) pre
        ++ EvAuthenticate a (AuthRaise e) :: tail /\
      authenticate_calls tail = [] /\
      (exists e', r = Raise e') /\
      successful_authenticated (view s') = Some false /\
      authenticator (view s') = authenticator (view s)).
Proof.
  intros H r s'. subst r s'.
  assert (Hrun : auth_run auths
                   (mkSt (mkView (authentication_classes (view s))
                            (permission_classes (view s))
                            (throttle_handlers (view s)) (Some auths)
                            (Some false) (authenticator (view s)))
                      (app s) (amb s) (log s))
                   (fst (perform_authentication s))
                   (snd (perform_authentication s))).
  { apply perform_authentication_loop_run.
    unfold get_authenticators, bind, get_view, get_app, set_authenticators, ret in H.
    simpl in H. injection H as H. subst auths.
    apply surjective_pairing. }
  set (s0 := mkSt _ _ _ _) in Hrun.
  assert (Hev : forall d, log (snd (perform_authentication s)) = log s0 ++ d ->
                          events_since s (snd (perform_authentication s)) = d).
  { intros d Hd. apply events_since_app. exact Hd. }
  destruct Hrun as [pre post a t Hl Hn Ha Hlog Hr Hs Hm
                   | Hn Hlog Hr Hv
                   | pre post a e e' tail Hl Hn Ha Hlog Ht Hr Hv];
    cbn [amb] in *.
  - left. exists pre, post, a, t. repeat split; auto.
  - right. left. rewrite Hv. repeat split; auto.
  - right. right. exists pre, post, a, e, tail. rewrite Hv.
    repeat split; auto. exists e'. exact Hr.
Qed.

(** C7.  From a request state in which no authenticator is marked yet (the
    view as the host constructs it), after [perform_authentication] at most
    one [authenticate] call has returned a tuple; the active-authenticator
    field holds an authenticator exactly when this authenticator's call is
    that one; and the field is [None] exactly when the request is flagged as
    not authenticated. *)
Theorem active_authenticator_invariant (s : St) :
  authenticator (view s) = None ->
  let s' := snd (perform_authentication s) in
  let successes := filter succeeded (authenticate_calls (events_since s s')) in
  (List.length successes <= 1)%nat /\
  (forall a, authenticator (view s') = Some a <->
             exists t, successes = [(a, AuthReturn (Some t))]) /\
  (authenticator (view s') = None <->
   successful_authenticated (view s') = Some false).
Proof.
  intros Hnone s' successes. subst s' successes.
  destruct (get_authenticators_spec s) as [auths Hg].
  assert (H : fst (get_authenticators s) = Ret auths) by (rewrite Hg; reflexivity).
  pose proof (perform_authentication_outcome s auths H) as Ho.
  set (s0 := mkSt _ _ _ _) in Ho.
  assert (Hev : events_since s (snd (perform_authentication s)) =
                events_since s0 (snd (perform_authentication s))) by reflexivity.
  rewrite Hev.
  destruct Ho as [pre post a t Hl Hlog Hr Hs Ha Hk
                 | Hlog Hr Hv Hg'
                 | pre post a e e' tail Hl Hlog He Hr Hv];
    rewrite (events_since_app _ _ _ Hlog).
  - rewrite authenticate_calls_app, authenticate_calls_map, filter_app,
      filter_succeeded_none. simpl. split; [lia|]. split.
    + intros b. rewrite Ha. split.
      * intros Hb. injection Hb as <-. exists t. reflexivity.
      * intros [t' Ht']. injection Ht' as <- _. reflexivity.
    + rewrite Ha, Hs. split; discriminate.
  - rewrite authenticate_calls_map, filter_succeeded_none, Hv. simpl.
    rewrite Hnone. split; [lia|]. split.
    + intros b. split; [discriminate|]. intros [t' Ht']. discriminate.
    + split; reflexivity.
  - rewrite authenticate_calls_app, authenticate_calls_map, filter_app,
      filter_succeeded_none. simpl.
    rewrite (authenticate_calls_tail _ _ _ _ He), Hv. simpl.
    rewrite Hnone. split; [lia|]. split.
    + intros b. split; [discriminate|]. intros [t' Ht']. discriminate.
    + split; reflexivity.
Qed.

(** C9.  When the resolved list of authenticators is empty, and likewise
    when every authenticator of the list was consulted and each returned
    [None], [perform_authentication] returns without raising, the request is
    flagged as not authenticated, no authenticator is marked, and
    [g.current_user] is [None]. *)
Theorem perform_authentication_unauthenticated (s : St) (auths : list Authenticator) :
  fst (get_authenticators s) = Ret auths ->
  let r := fst (perform_authentication s) in
  let s' := snd (perform_authentication s) in
  auths = [] \/
  authenticate_calls (events_since s s') = map (fun a => (a, AuthReturn None)) auths ->
  r = Ret tt /\
  successful_authenticated (view s') = Some false /\
  authenticator (view s') = authenticator (view s) /\
  g_current_user (amb s') = Some None.
Proof.
  intros H r s' Hex. subst r s'.
  pose proof (perform_authentication_outcome s auths H) as Ho.
  set (s0 := mkSt _ _ _ _) in Ho.
  assert (Hev : events_since s (snd (perform_authentication s)) =
                events_since s0 (snd (perform_authentication s))) by reflexivity.
  rewrite Hev in Hex.
  destruct (auth_outcome_calls _ _ _ _ Ho)
    as [[pre [post [a [t [Hl [Hc _]]]]]]
       |[[Hc [Hv [Hr Hg]]]
        |[pre [post [a [e [e' [Hl [Hc _]]]]]]]]].
  - exfalso. destruct Hex as [Hnil|Hex].
    + rewrite Hnil in Hl. destruct pre; discriminate.
    + rewrite Hc, Hl, map_app in Hex. apply app_inv_head in Hex. discriminate.
  - rewrite Hv. repeat split; assumption.
  - exfalso. destruct Hex as [Hnil|Hex].
    + rewrite Hnil in Hl. destruct pre; discriminate.
    + rewrite Hc, Hl, map_app in Hex. apply app_inv_head in Hex. discriminate.
Qed.

(** ** Permissions *)

Lemma get_permissions_spec (s : St) :
  get_permissions s =
  (Ret (map new_permission
          (py_or (permission_classes (view s))
             (getattr (PERMISSION_CLASSES (app s)) []))), s).
Proof. reflexivity. Qed.

(** [check_permissions] is the loop on the resolved list. *)
Lemma check_permissions_outcome (s : St) (perms : list Permission) :
  fst (get_permissions s) = Ret perms ->
  perm_outcome perms s (fst (check_permissions s)) (snd (check_permissions s)).
Proof.
  intros H. apply check_permissions_loop_outcome.
  rewrite get_permissions_spec in H. simpl in H. injection H as <-.
  apply surjective_pairing.
Qed.

(** C2.  Whatever the sequence of configured permissions,
    [check_permissions] ends in one of two ways.  Either every permission
    was asked, in order, each returned true, and the method returns; or
    exactly the permissions up to some [p] were asked, in order, all before
    [p] returned true, [p] returned false, and the method ends as
    [permission_denied], called with the message and code of [p] right after
    that call, ends: by raising, with no permission after [p] asked.  In
    particular, when the method returns every configured permission
    returned true. *)
Theorem check_permissions_fail_fast (s : St) (perms : list Permission) :
  fst (get_permissions s) = Ret perms ->
  let r := fst (check_permissions s) in
  let s' := snd (check_permissions s) in
  let calls := has_permission_calls (events_since s s') in
  ((r = Ret tt /\ calls = map (fun p => (p, true)) perms)
   \/
   (exists pre post p s1 e,
       perms = pre ++ p :: post /\
       events_since s s1 =
         map (fun q => EvHasPermission q true) pre ++ [EvHasPermission p false] /\
       check_permissions s = permission_denied (message p) (code p) s1 /\
       r = Raise e /\
       calls = map (fun q => (q, true)) pre ++ [(p, false)]))
  /\ (r = Ret tt -> calls = map (fun p => (p, true)) perms).
Proof.
  intros H r s' calls. subst r s' calls.
  destruct (check_permissions_outcome s perms H)
    as [Hlog Hall Hr Hv | pre post p s1 e Hl Hlog Hall Hp Hv Ha Hd Hr].
  - rewrite (events_since_app _ _ _ Hlog), has_permission_calls_map.
    split; [left; split|]; auto.
  - split; [right|rewrite Hr; discriminate].
    exists pre, post, p, s1, e.
    destruct (permission_denied_effect (message p) (code p) s1) as [_ [d [Hd1 Hd2]]].
    rewrite Hd in Hd1. simpl in Hd1.
    repeat split; auto.
    + apply events_since_app. exact Hlog.
    + rewrite Hd. apply surjective_pairing.
    + rewrite Hlog, <- app_assoc in Hd1.
      rewrite (events_since_app _ _ _ Hd1), !has_permission_calls_app,
        has_permission_calls_map, Hd2. simpl. rewrite app_nil_r. reflexivity.
Qed.

(** C4.  In a state in which the authentication step has run (the resolved
    list and the flag are assigned), [permission_denied] raises
    [NotAuthenticated] when the list is non-empty and the flag is false; the
    exception then carries the value that [authenticate_header()] of the
    first authenticator of the list returns, and that is the only call made.
    In every other case (empty list, or flag true) it raises
    [PermissionDenied] with the message and code it was given, and calls
    nothing. *)
Theorem permission_denied_escalation (s : St) (auths : list Authenticator)
  (b : bool) (msg cod : option string) :
  authenticators (view s) = Some auths ->
  successful_authenticated (view s) = Some b ->
  let r := fst (permission_denied msg cod s) in
  let s' := snd (permission_denied msg cod s) in
  (auths <> [] /\ b = false ->
   exists a h,
     hd_error auths = Some a /\
     h = fst (authenticate_header a (amb s)) /\
     r = Raise (mkExc NotAuthenticated None None None (Some (Some h))) /\
     events_since s s' = [EvAuthenticateHeader a h])
  /\
  (auths = [] \/ b = true ->
   r = Raise (mkExc PermissionDenied msg cod None None) /\
   events_since s s' = []).
Proof.
  intros Ha Hb r s'. subst r s'. rewrite permission_denied_spec, Ha, Hb.
  split.
  - intros [Hne ->]. destruct auths as [|a l]; [congruence|].
    exists a, (fst (authenticate_header a (amb s))). simpl.
    repeat split. unfold events_since. simpl.
    rewrite skipn_app, skipn_all, Nat.sub_diag. reflexivity.
  - intros Hor.
    assert (Hnil : events_since s s = [])
      by (unfold events_since; apply skipn_all).
    destruct auths as [|a l]; [split; [reflexivity|exact Hnil]|].
    destruct Hor as [Hor| ->]; [discriminate|].
    split; [reflexivity|exact Hnil].
Qed.

(** C10.  The attributes [permission_denied] reads are assigned by the
    authentication step only.  In a state in which the resolved list was
    never assigned, [permission_denied] raises [AttributeError] and so does
    [check_permissions] as soon as one permission returns false: the error
    is neither [NotAuthenticated] nor [PermissionDenied].  The same happens
    when a non-empty list is assigned and the flag is not.  Once
    [perform_authentication] has run, both are assigned and
    [permission_denied] raises one of the two API errors. *)
Theorem permission_denied_needs_authentication_step (s : St) :
  authenticators (view s) = None ->
  (forall msg cod,
      permission_denied msg cod s = (Raise new_AttributeError, s)) /\
  (forall p,
      In (p, false) (has_permission_calls
                       (events_since s (snd (check_permissions s)))) ->
      fst (check_permissions s) = Raise new_AttributeError) /\
  (forall (s2 : St) a l msg cod,
      authenticators (view s2) = Some (a :: l) ->
      successful_authenticated (view s2) = None ->
      permission_denied msg cod s2 = (Raise new_AttributeError, s2)) /\
  (forall msg cod,
      let s1 := snd (perform_authentication s) in
      authenticators (view s1) <> None /\
      successful_authenticated (view s1) <> None /\
      exists e, fst (permission_denied msg cod s1) = Raise e /\
                (exc_class e = NotAuthenticated \/ exc_class e = PermissionDenied)).
Proof.
  intros Hnone. split; [|split; [|split]].
  - intros msg cod. rewrite permission_denied_spec, Hnone. reflexivity.
  - intros p Hin.
    destruct (check_permissions_outcome s _ (f_equal fst (get_permissions_spec s)))
      as [Hlog Hall Hr Hv | pre post q s1 e Hl Hlog Hall Hp Hv Ha Hd Hr].
    + exfalso. rewrite (events_since_app _ _ _ Hlog), has_permission_calls_map in Hin.
      apply in_map_iff in Hin. destruct Hin as [x [Hx _]]. discriminate.
    + rewrite permission_denied_spec, Hv, Hnone in Hd.
      injection Hd as <- _. reflexivity.
  - intros s2 a l msg cod Ha Hs. rewrite permission_denied_spec, Ha, Hs. reflexivity.
  - intros msg cod s1. subst s1.
    destruct (get_authenticators_spec s) as [auths Hg].
    assert (H : fst (get_authenticators s) = Ret auths) by (rewrite Hg; reflexivity).
    pose proof (perform_authentication_outcome s auths H) as Ho.
    set (s0 := mkSt _ _ _ _) in Ho.
    set (s1 := snd (perform_authentication s)) in *.
    assert (Hattrs : authenticators (view s1) = Some auths /\
                     exists b, successful_authenticated (view s1) = Some b).
    { destruct Ho as [pre post a t Hl Hlog Hr Hs Ha Hk
                     | Hlog Hr Hv Hg'
                     | pre post a e e' tail Hl Hlog He Hr Hv].
      - split; [rewrite Hk; reflexivity|exists true; exact Hs].
      - rewrite Hv. split; [reflexivity|exists false; reflexivity].
      - rewrite Hv. split; [reflexivity|exists false; reflexivity]. }
    destruct Hattrs as [Ha [b Hb]]. rewrite Ha, Hb.
    split; [discriminate|]. split; [discriminate|].
    rewrite permission_denied_spec, Ha, Hb.
    destruct auths as [|a l]; [eexists; split; [reflexivity|right; reflexivity]|].
    destruct b; eexists; (split; [reflexivity|]); [right|left]; reflexivity.
Qed.

(** ** Throttles *)

(** Building the throttles neither touches the state nor calls anything. *)
Lemma get_throttles_loop_state (l : list ThrottleConf) :
  forall (acc : list Throttle) (s : St), snd (get_throttles_loop l acc s) = s.
Proof.
  induction l as [|c l IH]; intros acc s; simpl; [reflexivity|].
  destruct (conf_class c); [apply IH|reflexivity].
Qed.

Lemma get_throttles_state (s : St) : snd (get_throttles s) = s.
Proof. unfold get_throttles, bind. simpl. apply get_throttles_loop_state. Qed.

(** [check_throttles] once the throttles are built. *)
Lemma check_throttles_eq (s : St) (ts : list Throttle) :
  fst (get_throttles s) = Ret ts ->
  check_throttles s =
  match check_throttles_loop ts [] s with
  | (Ret [], s1) => (Ret tt, s1)
  | (Ret (z :: ds), s1) => (Raise (new_Throttled (py_max (z :: ds))), s1)
  | (Raise e, s1) => (Raise e, s1)
  end.
Proof.
  intros Hts.
  assert (Hget : get_throttles s = (Ret ts, s)).
  { rewrite (surjective_pairing (get_throttles s)), Hts, get_throttles_state.
    reflexivity. }
  unfold check_throttles, bind. rewrite Hget.
  destruct (check_throttles_loop ts [] s) as [[[|z ds]|e] s1]; reflexivity.
Qed.

(** C3.  Whatever the sequence of configured throttles, [check_throttles]
    calls [allow_request()] on every throttle, once and in order, also after
    one has denied; it calls [wait()] on exactly the throttles that denied,
    each right after its denial.  If none denied it returns.  If one denied it raises [Throttled] with the
    largest of the waits obtained: the [max] is taken of a non-empty list,
    so its default is never the result. *)
Theorem check_throttles_max_wait (s : St) (ts : list Throttle) :
  fst (get_throttles s) = Ret ts ->
  let r := fst (check_throttles s) in
  let d := events_since s (snd (check_throttles s)) in
  let waits := map snd (wait_calls d) in
  throttle_trace ts d waits /\
  map fst (allow_request_calls d) = ts /\
  map fst (wait_calls d) = map fst (denials d) /\
  (denials d = [] -> r = Ret tt) /\
  (denials d <> [] ->
   exists m : Z,
     In m waits /\
     Forall (fun w => (w <= m)%Z) waits /\
     py_max waits = Some m /\
     r = Raise (mkExc Throttled None None (Some m) None)).
Proof.
  intros Hts r d waits. subst r d waits.
  rewrite (check_throttles_eq s ts Hts).
  destruct (check_throttles_loop ts [] s) as [r1 s1] eqn:Hloop.
  apply check_throttles_loop_trace in Hloop.
  destruct Hloop as [d [ds [Htrace [Hlog [Hr Hv]]]]]. simpl in Hr. subst r1.
  destruct (throttle_trace_calls _ _ _ Htrace) as [Hallow [Hwait [Hds _]]].
  pose proof (events_since_app _ _ _ Hlog) as Hev.
  destruct ds as [|z ds]; cbn [fst snd]; rewrite Hev;
    (split; [rewrite Hds; exact Htrace|]).
  - repeat split; auto. intros Hne. exfalso. apply Hne.
    destruct (wait_calls d); [|discriminate].
    destruct (denials d); [reflexivity|discriminate].
  - repeat split; auto.
    + intros Hnil. exfalso. rewrite Hnil in Hwait.
      destruct (wait_calls d); discriminate.
    + intros _. rewrite Hds.
      destruct (py_max_spec (z :: ds)) as [m [Hm [Hin Hall]]]; [discriminate|].
      exists m. repeat split; auto.
      unfold new_Throttled. rewrite Hm. reflexivity.
Qed.

(** ** Dispatch *)

Lemma policy_events_no_handler (d : list Event) :
  forallb policy_event d = true ->
  exception_handler_calls d = [] /\ handler_body_calls d = 0.
Proof.
  induction d as [|ev d IH]; simpl; [split; reflexivity|].
  intros H. apply andb_prop in H. destruct H as [Hev Hd].
  destruct ev; simpl in *; try discriminate; apply IH; exact Hd.
Qed.

Lemma exception_handler_calls_app (l1 l2 : list Event) :
  exception_handler_calls (l1 ++ l2) =
  exception_handler_calls l1 ++ exception_handler_calls l2.
Proof.
  induction l1 as [|ev l1 IH]; simpl; [reflexivity|].
  destruct ev; simpl; rewrite ?IH; reflexivity.
Qed.

Lemma handler_body_calls_app (l1 l2 : list Event) :
  handler_body_calls (l1 ++ l2) = handler_body_calls l1 + handler_body_calls l2.
Proof.
  induction l1 as [|ev l1 IH]; simpl; [reflexivity|].
  destruct ev; simpl; rewrite ?IH; reflexivity.
Qed.

(** What [dispatch_request] does when [initial] raises. *)
Lemma dispatch_request_raise (s s1 : St) (e : Exc) :
  initial s = (Raise e, s1) ->
  dispatch_request s =
  (fst (getattr (EXCEPTION_HANDLER (app s1)) exception_handler e (amb s1)),
   mkSt (view s1) (app s1)
     (snd (getattr (EXCEPTION_HANDLER (app s1)) exception_handler e (amb s1)))
     (log s1 ++ [EvExceptionHandler e])).
Proof.
  intros H. unfold dispatch_request. rewrite H.
  unfold handle_exception, bind, get_app, call_handler. simpl.
  destruct (getattr (EXCEPTION_HANDLER (app s1)) exception_handler e (amb s1)).
  reflexivity.
Qed.

(** What [dispatch_request] does when [initial] returns. *)
Lemma dispatch_request_return (s s1 : St) (u : unit) :
  initial s = (Ret u, s1) ->
  dispatch_request s =
  (fst (super_dispatch_request tt (amb s1)),
   mkSt (view s1) (app s1) (snd (super_dispatch_request tt (amb s1)))
     (log s1 ++ [EvHandlerBody])).
Proof.
  intros H. unfold dispatch_request. rewrite H. unfold call_handler. simpl.
  destruct (super_dispatch_request tt (amb s1)). reflexivity.
Qed.

Lemma dispatch_request_same_config (s : St) :
  same_config s (snd (dispatch_request s)).
Proof.
  destruct (frames_initial s) as [Hc _].
  destruct (initial s) as [[u|e] s1] eqn:Hi.
  - rewrite (dispatch_request_return _ _ _ Hi). exact Hc.
  - rewrite (dispatch_request_raise _ _ _ Hi). exact Hc.
Qed.

(** [initial] leaves the settings alone and logs policy events only. *)
Lemma initial_policy_events (s : St) :
  app (snd (initial s)) = app s /\
  exists d : list Event,
    log (snd (initial s)) = log s ++ d /\
    events_since s (snd (initial s)) = d /\
    exception_handler_calls d = [] /\
    handler_body_calls d = 0.
Proof.
  destruct (frames_initial s) as [[Happ _] [d [Hlog Hpol]]].
  destruct (policy_events_no_handler d Hpol) as [Hnoexc Hnobody].
  split; [exact Happ|]. exists d. repeat split; auto.
  apply events_since_app. exact Hlog.
Qed.

(** The events of a request whose [initial] raised [e]. *)
Lemma dispatch_request_raise_events (s : St) (e : Exc) :
  fst (initial s) = Raise e ->
  events_since s (snd (dispatch_request s)) =
  events_since s (snd (initial s)) ++ [EvExceptionHandler e].
Proof.
  intros H.
  destruct (initial_policy_events s) as [_ [d [Hlog [Hev _]]]].
  destruct (initial s) as [r s1] eqn:Hi. simpl in *. subst r.
  rewrite (dispatch_request_raise _ _ _ Hi), Hev.
  apply events_since_app. simpl. rewrite Hlog, app_assoc. reflexivity.
Qed.

(** C8.  When [initial] raises an exception [e], from whichever of its
    three steps, [dispatch_request] hands [e] to the exception handler of
    the application ([EXCEPTION_HANDLER] when set, the built-in handler
    otherwise) and returns what the handler returns.  During the request the
    exception handler is entered exactly once, with [e], after everything
    [initial] did, and the handler body is never entered. *)
Theorem initial_errors_reach_exception_handler (s : St) (e : Exc) :
  fst (initial s) = Raise e ->
  let s1 := snd (initial s) in
  let s' := snd (dispatch_request s) in
  let handler := getattr (EXCEPTION_HANDLER (app s)) exception_handler in
  fst (dispatch_request s) = fst (handler e (amb s1)) /\
  amb s' = snd (handler e (amb s1)) /\
  events_since s s' = events_since s s1 ++ [EvExceptionHandler e] /\
  exception_handler_calls (events_since s s') = [e] /\
  handler_body_calls (events_since s s') = 0.
Proof.
  intros H s1 s' handler. subst s1 s' handler.
  rewrite (dispatch_request_raise_events s e H).
  destruct (initial_policy_events s) as [Happ [d [_ [Hev [Hnoexc Hnobody]]]]].
  rewrite Hev, exception_handler_calls_app, handler_body_calls_app,
    Hnoexc, Hnobody.
  destruct (initial s) as [r s1] eqn:Hi. simpl in H, Happ. subst r.
  rewrite (dispatch_request_raise _ _ _ Hi), Happ.
  repeat split.
Qed.

(** ** Configuration *)

Lemma resolves_to_py_or {A B : Type} (view_level : list A)
  (default : option (list A)) (used : list A -> B) :
  resolves_to view_level default used (used (py_or view_level (getattr default []))).
Proof.
  split; intros H.
  - destruct view_level; [congruence|reflexivity].
  - rewrite H. reflexivity.
Qed.

Lemma get_throttles_loop_result (l : list ThrottleConf) :
  forall (acc : list Throttle) (s1 s2 : St),
    fst (get_throttles_loop l acc s1) = fst (get_throttles_loop l acc s2).
Proof.
  induction l as [|c l IH]; intros acc s1 s2; simpl; [reflexivity|].
  destruct (conf_class c); [apply IH|reflexivity].
Qed.

(** The three resolutions at [s], for the settings [a] and the class
    attributes of the view [v]. *)
Lemma resolution_at (s : St) (v : View) (a : App) :
  app s = a ->
  authentication_classes (view s) = authentication_classes v ->
  permission_classes (view s) = permission_classes v ->
  throttle_handlers (view s) = throttle_handlers v ->
  resolves_to (authentication_classes v) (AUTHENTICATION_CLASSES a)
    (fun l => Ret (map new_authenticator l)) (fst (get_authenticators s)) /\
  resolves_to (permission_classes v) (PERMISSION_CLASSES a)
    (fun l => Ret (map new_permission l)) (fst (get_permissions s)) /\
  resolves_to (throttle_handlers v) (THROTTLE_HANDLERS a)
    (fun l => fst (get_throttles_loop l [] s)) (fst (get_throttles s)).
Proof.
  intros <- <- <- <-. repeat split; intros H;
    unfold get_authenticators, get_permissions, get_throttles, bind; simpl;
    try rewrite H; try reflexivity;
    match goal with
    | Hne : ?l <> [] |- _ => destruct l; [congruence|reflexivity]
    end.
Qed.

(** C6.  For each of the three policy families, the list a request uses is
    the view-level list when that list is non-empty and the process-wide
    default when it is empty, never both.  The resolution reads the
    settings of the application each time it runs: after a whole request
    has been served and the host has replaced the settings by [a2], the
    lists resolve against [a2], whatever the earlier request assigned on the
    view. *)
Theorem policy_lists_resolved_afresh (s : St) :
  let v := view s in
  (resolves_to (authentication_classes v) (AUTHENTICATION_CLASSES (app s))
     (fun l => Ret (map new_authenticator l)) (fst (get_authenticators s)) /\
   resolves_to (permission_classes v) (PERMISSION_CLASSES (app s))
     (fun l => Ret (map new_permission l)) (fst (get_permissions s)) /\
   resolves_to (throttle_handlers v) (THROTTLE_HANDLERS (app s))
     (fun l => fst (get_throttles_loop l [] s)) (fst (get_throttles s)))
  /\
  (forall a2 : App,
      let s2 := reconfigure (snd (dispatch_request s)) a2 in
      resolves_to (authentication_classes v) (AUTHENTICATION_CLASSES a2)
        (fun l => Ret (map new_authenticator l)) (fst (get_authenticators s2)) /\
      resolves_to (permission_classes v) (PERMISSION_CLASSES a2)
        (fun l => Ret (map new_permission l)) (fst (get_permissions s2)) /\
      resolves_to (throttle_handlers v) (THROTTLE_HANDLERS a2)
        (fun l => fst (get_throttles_loop l [] s)) (fst (get_throttles s2))).
Proof.
  intros v. subst v. split.
  - apply resolution_at; reflexivity.
  - intros a2 s2.
    destruct (dispatch_request_same_config s) as [_ [Ha [Hp Ht]]].
    destruct (resolution_at s2 (view s) a2) as [H1 [H2 H3]];
      try reflexivity; try assumption.
    repeat split; try apply H1; try apply H2.
    + intros H. destruct H3 as [H3 _]. rewrite (H3 H).
      apply get_throttles_loop_result.
    + intros H. destruct H3 as [_ H3]. rewrite (H3 H).
      apply get_throttles_loop_result.
Qed.

(** ** The empty view-level list *)

Lemma check_permissions_loop_denier (l : list Permission) (p : Permission)
  (s : St) :
  In p l ->
  (forall w, fst (has_permission p w) = false) ->
  exists e : Exc, fst (check_permissions_loop l s) = Raise e.
Proof.
  intros Hin Hdeny.
  destruct (check_permissions_loop_outcome l s _ _
              (surjective_pairing (check_permissions_loop l s)))
    as [Hlog Hall Hr Hv | pre post q s1 e Hl Hlog Hall Hq Hv Ha Hd Hr].
  - exfalso. rewrite Forall_forall in Hall.
    destruct (Hall p Hin) as [w Hw]. rewrite Hdeny in Hw. discriminate.
  - exists e. exact Hr.
Qed.

(** C5, as the code has it.  When the view-level permission list is empty
    and the process-wide default contains a permission that denies, the
    default is the list that is checked: [check_permissions] raises,
    [initial] raises, and [dispatch_request] answers through the exception
    handler without entering the handler body. *)
Theorem empty_permission_list_uses_default (s : St)
  (default : list PermissionClass) (pc : PermissionClass) :
  permission_classes (view s) = [] ->
  PERMISSION_CLASSES (app s) = Some default ->
  In pc default ->
  (forall w, fst (has_permission (new_permission pc) w) = false) ->
  let s' := snd (dispatch_request s) in
  fst (get_permissions s) = Ret (map new_permission default) /\
  (exists e, fst (check_permissions s) = Raise e) /\
  (exists e, fst (initial s) = Raise e /\
             exception_handler_calls (events_since s s') = [e]) /\
  handler_body_calls (events_since s s') = 0.
Proof.
  intros Hnil Hdef Hin Hdeny s'. subst s'.
  assert (Hchk : forall s0 : St,
             permission_classes (view s0) = [] -> app s0 = app s ->
             exists e, fst (check_permissions s0) = Raise e).
  { intros s0 Hv Ha. unfold check_permissions, bind.
    rewrite get_permissions_spec, Hv, Ha, Hdef. simpl.
    destruct (check_permissions_loop_denier (map new_permission default)
                (new_permission pc) s0 (in_map _ _ _ Hin) Hdeny) as [e He].
    exists e. destruct (check_permissions_loop _ s0) as [r s1].
    simpl in He. subst r. reflexivity. }
  assert (Hinit : exists e, fst (initial s) = Raise e).
  { unfold initial, bind.
    destruct (frames_perform_authentication s) as [[Ha [_ [Hp _]]] _].
    destruct (perform_authentication s) as [[u|e] s1]; simpl in *;
      [|exists e; reflexivity].
    destruct (Hchk s1) as [e He]; [congruence|assumption|].
    destruct (check_permissions s1) as [r s2]. simpl in He. subst r.
    exists e. reflexivity. }
  split; [rewrite get_permissions_spec, Hnil, Hdef; reflexivity|].
  split; [apply Hchk; auto|].
  destruct Hinit as [e He].
  rewrite (dispatch_request_raise_events s e He).
  destruct (initial_policy_events s) as [_ [d [_ [Hev [Hnoexc Hnobody]]]]].
  rewrite Hev, exception_handler_calls_app, handler_body_calls_app,
    Hnoexc, Hnobody.
  split; [exists e; split; [exact He|reflexivity]|reflexivity].
Qed.

(** * Further properties *)

(** ** Which step logs what *)

Lemma logs_only_ret {A : Type} (P : Event -> bool) (a : A) : logs_only P (ret a).
Proof. intros s. exists []. rewrite app_nil_r. split; reflexivity. Qed.

Lemma logs_only_raise {A : Type} (P : Event -> bool) (e : Exc) :
  logs_only P (@raise A e).
Proof. intros s. exists []. rewrite app_nil_r. split; reflexivity. Qed.

Lemma logs_only_bind {A B : Type} (P : Event -> bool) (m : M A) (k : A -> M B) :
  logs_only P m -> (forall a, logs_only P (k a)) -> logs_only P (bind m k).
Proof.
  intros Hm Hk s. unfold bind. destruct (Hm s) as [d1 [Hl1 Hp1]].
  destruct (m s) as [[a|e] s1]; simpl in *.
  - destruct (Hk a s1) as [d2 [Hl2 Hp2]]. exists (d1 ++ d2). split.
    + rewrite Hl2, Hl1, app_assoc. reflexivity.
    + rewrite forallb_app, Hp1, Hp2. reflexivity.
  - exists d1. split; assumption.
Qed.

Lemma logs_only_call {A : Type} (P : Event -> bool)
  (f : Ambient -> A * Ambient) (ev : A -> Event) :
  (forall a, P (ev a) = true) -> logs_only P (call f ev).
Proof.
  intros Hev s. unfold call. destruct (f (amb s)) as [a w]. simpl.
  exists [ev a]. simpl. rewrite Hev. split; reflexivity.
Qed.

Lemma logs_only_silent {A : Type} (P : Event -> bool) (m : M A) :
  (forall s, log (snd (m s)) = log s) -> logs_only P m.
Proof.
  intros H s. exists []. rewrite app_nil_r. split; [apply H|reflexivity].
Qed.

Lemma logs_only_self_attr {A : Type} (P : Event -> bool) (f : View -> option A) :
  logs_only P (self_attr f).
Proof.
  apply logs_only_silent. intros s. unfold self_attr.
  destruct (f (view s)); reflexivity.
Qed.

Ltac logs_step :=
  first
    [ apply logs_only_bind; [|intros ?]
    | apply logs_only_call; intros ?; reflexivity
    | apply logs_only_ret
    | apply logs_only_raise
    | apply logs_only_self_attr
    | apply logs_only_silent; intros ?; reflexivity ].

Ltac logs := repeat logs_step.

Lemma logs_perform_authentication_loop (l : list Authenticator) :
  logs_only authentication_event (perform_authentication_loop l).
Proof.
  induction l as [|a l IH]; simpl.
  - logs.
  - logs_step; [logs|].
    destruct a0 as [[t|]|e]; [logs|exact IH|].
    destruct (is_APIException (exc_class e)); logs.
Qed.

Lemma logs_perform_authentication :
  logs_only authentication_event perform_authentication.
Proof.
  unfold perform_authentication, get_authenticators.
  logs_step; [logs|]. logs_step; [logs|].
  apply logs_perform_authentication_loop.
Qed.

Lemma logs_permission_denied (msg cod : option string) :
  logs_only permission_event (permission_denied msg cod).
Proof.
  unfold permission_denied, get_authenticate_header.
  logs_step; [logs|]. logs_step.
  - destruct a as [|a l]; logs.
  - destruct a0; [|logs]. logs_step; [|logs].
    logs_step; [logs|]. destruct a0 as [|b l]; logs.
Qed.

Lemma logs_check_permissions_loop (l : list Permission) :
  logs_only permission_event (check_permissions_loop l).
Proof.
  induction l as [|p l IH]; simpl.
  - logs.
  - logs_step; [logs|].
    destruct (negb a); [|exact IH].
    logs_step; [apply logs_permission_denied|exact IH].
Qed.

Lemma logs_check_permissions : logs_only permission_event check_permissions.
Proof.
  unfold check_permissions, get_permissions.
  logs_step; [logs|]. apply logs_check_permissions_loop.
Qed.

Lemma authentication_events_calls (d : list Event) :
  forallb authentication_event d = true ->
  has_permission_calls d = [] /\ allow_request_calls d = [] /\ wait_calls d = [].
Proof.
  induction d as [|ev d IH]; simpl; [repeat split|].
  intros H. apply andb_prop in H. destruct H as [Hev Hd].
  destruct ev; simpl in *; try discriminate; apply IH; exact Hd.
Qed.

Lemma permission_events_calls (d : list Event) :
  forallb permission_event d = true ->
  authenticate_calls d = [] /\ allow_request_calls d = [] /\ wait_calls d = [].
Proof.
  induction d as [|ev d IH]; simpl; [repeat split|].
  intros H. apply andb_prop in H. destruct H as [Hev Hd].
  destruct ev; simpl in *; try discriminate; apply IH; exact Hd.
Qed.

Lemma allow_request_calls_app (l1 l2 : list Event) :
  allow_request_calls (l1 ++ l2) = allow_request_calls l1 ++ allow_request_calls l2.
Proof.
  induction l1 as [|ev l1 IH]; simpl; [reflexivity|].
  destruct ev; simpl; rewrite ?IH; reflexivity.
Qed.

Lemma wait_calls_app (l1 l2 : list Event) :
  wait_calls (l1 ++ l2) = wait_calls l1 ++ wait_calls l2.
Proof.
  induction l1 as [|ev l1 IH]; simpl; [reflexivity|].
  destruct ev; simpl; rewrite ?IH; reflexivity.
Qed.

(** ** The three steps in sequence *)

(** [initial], step by step. *)
Lemma initial_steps (s : St) :
  initial s =
  match perform_authentication s with
  | (Raise e, s1) => (Raise e, s1)
  | (Ret _, s1) =>
      match check_permissions s1 with
      | (Raise e, s2) => (Raise e, s2)
      | (Ret _, s2) => check_throttles s2
      end
  end.
Proof.
  unfold initial, bind.
  destruct (perform_authentication s) as [[u|e] s1]; [|reflexivity].
  destruct (check_permissions s1) as [[u'|e] s2]; reflexivity.
Qed.

Lemma events_since_trans (s s1 s2 : St) (d1 d2 : list Event) :
  log s1 = log s ++ d1 -> log s2 = log s1 ++ d2 ->
  events_since s s2 = d1 ++ d2.
Proof.
  intros H1 H2. apply events_since_app. rewrite H2, H1, app_assoc. reflexivity.
Qed.

(** X2.  [initial] stops at the first step that raises.  When
    [perform_authentication] raises, [initial] raises the same exception
    and no permission and no throttle is consulted; when
    [perform_authentication] returns and [check_permissions] raises,
    [initial] raises that exception and no throttle is consulted. *)
Theorem initial_stops_at_first_failing_step (s : St) (e : Exc) :
  let s1 := snd (perform_authentication s) in
  let d := events_since s (snd (initial s)) in
  fst (perform_authentication s) = Raise e \/
  (fst (perform_authentication s) = Ret tt /\
   fst (check_permissions s1) = Raise e) ->
  fst (initial s) = Raise e /\
  allow_request_calls d = [] /\
  wait_calls d = [] /\
  (fst (perform_authentication s) = Raise e -> has_permission_calls d = []).
Proof.
  intros s1 d H. subst s1 d. rewrite initial_steps.
  destruct (logs_perform_authentication s) as [d1 [Hl1 Hp1]].
  destruct (authentication_events_calls d1 Hp1) as [Hperm1 [Hallow1 Hwait1]].
  destruct (perform_authentication s) as [r1 s1] eqn:Hpa. simpl in *.
  destruct H as [H|[H1 H2]]; subst r1.
  - simpl. rewrite (events_since_app _ _ _ Hl1). repeat split; auto.
  - destruct (logs_check_permissions s1) as [d2 [Hl2 Hp2]].
    destruct (permission_events_calls d2 Hp2) as [_ [Hallow2 Hwait2]].
    destruct (check_permissions s1) as [r2 s2] eqn:Hcp. simpl in *. subst r2.
    simpl. rewrite (events_since_trans _ _ _ _ _ Hl1 Hl2).
    rewrite allow_request_calls_app, wait_calls_app, Hallow1, Hallow2,
      Hwait1, Hwait2.
    repeat split. discriminate.
Qed.

(** X1.  When [initial] returns, [dispatch_request] enters the handler body
    exactly once, after everything [initial] did, and returns or raises
    whatever the body returns or raises: the exception handler is not
    entered, also when the body raises. *)
Theorem handler_body_errors_bypass_exception_handler (s : St) :
  fst (initial s) = Ret tt ->
  let s1 := snd (initial s) in
  let s' := snd (dispatch_request s) in
  fst (dispatch_request s) = fst (super_dispatch_request tt (amb s1)) /\
  amb s' = snd (super_dispatch_request tt (amb s1)) /\
  events_since s s' = events_since s s1 ++ [EvHandlerBody] /\
  exception_handler_calls (events_since s s') = [] /\
  handler_body_calls (events_since s s') = 1.
Proof.
  intros H s1 s'. subst s1 s'.
  destruct (initial_policy_events s) as [_ [d [Hlog [Hev [Hnoexc Hnobody]]]]].
  destruct (initial s) as [r s1] eqn:Hi. simpl in *. subst r.
  rewrite (dispatch_request_return _ _ _ Hi). simpl.
  assert (Hd : events_since s
                 (mkSt (view s1) (app s1)
                    (snd (super_dispatch_request tt (amb s1)))
                    (log s1 ++ [EvHandlerBody])) = d ++ [EvHandlerBody]).
  { apply events_since_app. simpl. rewrite Hlog, app_assoc. reflexivity. }
  rewrite Hd, Hev, exception_handler_calls_app, handler_body_calls_app,
    Hnoexc, Hnobody.
  repeat split.
Qed.

(** X3.  [perform_authentication] raises only when a call of
    [authenticate()] raised.  The authenticators before the raising one
    returned [None] and those after it are not consulted.  An API exception
    is re-raised with [auth_header] set to what [authenticate_header()] of
    the raising authenticator returned, asked right after; any other
    exception is re-raised as it is and no header is asked.  The request
    stays flagged as not authenticated and no authenticator is marked. *)
Theorem authentication_error_carries_header (s : St) (e' : Exc) :
  fst (perform_authentication s) = Raise e' ->
  let s' := snd (perform_authentication s) in
  exists auths pre a post e tail,
    fst (get_authenticators s) = Ret auths /\
    auths = pre ++ a :: post /\
    events_since s s' =
      map (fun x => EvAuthenticate x (AuthReturn None)) pre
      ++ EvAuthenticate a (AuthRaise e) :: tail /\
    (is_APIException (exc_class e) = true /\
     (exists h, tail = [EvAuthenticateHeader a h] /\
                e' = mkExc (exc_class e) (exc_detail e) (exc_code e)
                       (exc_duration e) (Some (Some h)))
     \/ is_APIException (exc_class e) = false /\ tail = [] /\ e' = e) /\
    successful_authenticated (view s') = Some false /\
    authenticator (view s') = authenticator (view s) /\
    authenticators (view s') = Some auths.
Proof.
  intros H s'. subst s'.
  destruct (get_authenticators_spec s) as [auths Hg].
  assert (Ha : fst (get_authenticators s) = Ret auths) by (rewrite Hg; reflexivity).
  pose proof (perform_authentication_outcome s auths Ha) as Ho.
  set (s0 := mkSt _ _ _ _) in Ho.
  assert (Hev : events_since s (snd (perform_authentication s)) =
                events_since s0 (snd (perform_authentication s))) by reflexivity.
  destruct Ho as [pre post a t Hl Hlog Hr Hs Hm Hk
                 | Hlog Hr Hv Hg'
                 | pre post a e e0 tail Hl Hlog He Hr Hv];
    try (rewrite H in Hr; discriminate).
  rewrite H in Hr. injection Hr as ->.
  exists auths, pre, a, post, e, tail. rewrite Hv.
  repeat split; auto.
  rewrite Hev. apply events_since_app. exact Hlog.
Qed.

(** ** Building the throttles *)

Lemma get_throttles_loop_built (l : list ThrottleConf) :
  forall (acc : list Throttle) (s : St),
    Forall (fun c => conf_class c <> None) l ->
    exists ts : list Throttle,
      get_throttles_loop l acc s = (Ret (acc ++ ts), s) /\
      Forall2 built_from l ts.
Proof.
  induction l as [|c l IH]; intros acc s Hall.
  - exists []. rewrite app_nil_r. split; [reflexivity|constructor].
  - inversion Hall as [|c' l' Hc Hl]; subst. simpl.
    destruct (conf_class c) as [cls|] eqn:Hcls; [|congruence].
    destruct (IH (acc ++ [new_throttle cls (conf_rate c)]) s Hl) as [ts [Hts Hb]].
    exists (new_throttle cls (conf_rate c) :: ts). split.
    + rewrite Hts, <- app_assoc. reflexivity.
    + constructor; [|exact Hb]. exists cls. split; [exact Hcls|reflexivity].
Qed.

Lemma get_throttles_loop_malformed (l : list ThrottleConf) :
  forall (acc : list Throttle) (s : St),
    Exists (fun c => conf_class c = None) l ->
    get_throttles_loop l acc s = (Raise new_TypeError, s).
Proof.
  induction l as [|c l IH]; intros acc s Hex.
  - inversion Hex.
  - simpl. destruct (conf_class c) as [cls|] eqn:Hcls; [|reflexivity].
    apply IH. inversion Hex as [c' l' Hc|c' l' Hl]; subst; [congruence|exact Hl].
Qed.

(** X4.  An entry of the throttle list without a ["class"] makes
    [get_throttles] raise [TypeError], wherever the entry stands in the
    list; [check_throttles] then raises [TypeError] without consulting any
    throttle, the well-formed ones before that entry included.  When every
    entry has a class, [get_throttles] returns one throttle per entry, in
    order, each built by the entry's class from the entry's rate. *)
Theorem malformed_throttle_entry_stops_all (s : St) :
  let confs := py_or (throttle_handlers (view s))
                 (getattr (THROTTLE_HANDLERS (app s)) []) in
  (Exists (fun c => conf_class c = None) confs ->
   get_throttles s = (Raise new_TypeError, s) /\
   check_throttles s = (Raise new_TypeError, s)) /\
  (Forall (fun c => conf_class c <> None) confs ->
   exists ts : list Throttle,
     get_throttles s = (Ret ts, s) /\ Forall2 built_from confs ts).
Proof.
  intros confs. subst confs. split.
  - intros Hex.
    assert (Hg : get_throttles s = (Raise new_TypeError, s)).
    { unfold get_throttles, bind. simpl.
      apply get_throttles_loop_malformed. exact Hex. }
    split; [exact Hg|]. unfold check_throttles, bind. rewrite Hg. reflexivity.
  - intros Hall.
    destruct (get_throttles_loop_built _ [] s Hall) as [ts [Hts Hb]].
    exists ts. split; [|exact Hb].
    unfold get_throttles, bind. simpl. exact Hts.
Qed.

(** ** The header after authentication *)

(** X7.  After [perform_authentication], however it ended,
    [get_authenticate_header] does not raise: it returns [None] and calls
    nothing when no authenticator is configured, and otherwise the value of
    [authenticate_header()] of the first configured authenticator, which
    need not be the one that authenticated the request.  It assigns nothing
    on the view, so a further call asks the same authenticator. *)
Theorem authenticate_header_of_first_configured (s : St) :
  let s1 := snd (perform_authentication s) in
  exists auths : list Authenticator,
    fst (get_authenticators s) = Ret auths /\
    view (snd (get_authenticate_header s1)) = view s1 /\
    match auths with
    | [] => get_authenticate_header s1 = (Ret None, s1)
    | a0 :: _ =>
        fst (get_authenticate_header s1) =
          Ret (Some (fst (authenticate_header a0 (amb s1)))) /\
        events_since s1 (snd (get_authenticate_header s1)) =
          [EvAuthenticateHeader a0 (fst (authenticate_header a0 (amb s1)))]
    end.
Proof.
  intros s1. subst s1.
  destruct (get_authenticators_spec s) as [auths Hg].
  assert (Ha : fst (get_authenticators s) = Ret auths) by (rewrite Hg; reflexivity).
  pose proof (perform_authentication_outcome s auths Ha) as Ho.
  set (s0 := mkSt _ _ _ _) in Ho.
  set (s1 := snd (perform_authentication s)) in *.
  assert (Hattr : authenticators (view s1) = Some auths).
  { destruct Ho as [pre post a t Hl Hlog Hr Hs Hm Hk
                   | Hlog Hr Hv Hg'
                   | pre post a e e0 tail Hl Hlog He Hr Hv].
    - rewrite Hk. reflexivity.
    - rewrite Hv. reflexivity.
    - rewrite Hv. reflexivity. }
  exists auths. split; [exact Ha|].
  unfold get_authenticate_header, bind, self_attr, call. rewrite Hattr.
  destruct auths as [|a0 l]; simpl.
  - split; reflexivity.
  - destruct (authenticate_header a0 (amb s1)) as [h w]. simpl.
    repeat split. unfold events_since. simpl.
    rewrite skipn_app, skipn_all, Nat.sub_diag. reflexivity.
Qed.

(** ** A request that passes, a request that is denied *)

Lemma get_permissions_config (s s' : St) :
  same_config s s' -> fst (get_permissions s') = fst (get_permissions s).
Proof.
  intros [Ha [_ [Hp _]]]. rewrite !get_permissions_spec. simpl.
  rewrite Ha, Hp. reflexivity.
Qed.

Lemma get_throttles_config (s s' : St) :
  same_config s s' -> fst (get_throttles s') = fst (get_throttles s).
Proof.
  intros [Ha [_ [_ Ht]]]. unfold get_throttles, bind. simpl.
  rewrite Ha, Ht. apply get_throttles_loop_result.
Qed.

Lemma same_config_trans (s1 s2 s3 : St) :
  same_config s1 s2 -> same_config s2 s3 -> same_config s1 s3.
Proof.
  intros [Ha [Hb [Hc Hd]]] [Ha' [Hb' [Hc' Hd']]]. repeat split; congruence.
Qed.

(** A trace without a wait is a trace of allowed requests. *)
Lemma throttle_trace_all_allowed (l : list Throttle) (d : list Event) (ds : list Z) :
  throttle_trace l d ds -> ds = [] ->
  d = map (fun t => EvAllowRequest t true) l.
Proof.
  induction 1 as [|t l d ds _ IH|t w l d ds _ IH]; intros Hnil.
  - reflexivity.
  - simpl. rewrite (IH Hnil). reflexivity.
  - discriminate.
Qed.

Lemma throttle_trace_events (l : list Throttle) (d : list Event) (ds : list Z) :
  throttle_trace l d ds -> forallb throttle_event d = true.
Proof.
  induction 1 as [|t l d ds _ IH|t w l d ds _ IH]; simpl; auto.
Qed.

Lemma throttle_events_calls (d : list Event) :
  forallb throttle_event d = true ->
  authenticate_calls d = [] /\ has_permission_calls d = [].
Proof.
  induction d as [|ev d IH]; simpl; [repeat split|].
  intros H. apply andb_prop in H. destruct H as [Hev Hd].
  destruct ev; simpl in *; try discriminate; apply IH; exact Hd.
Qed.

Lemma allow_request_calls_map (l : list Throttle) (b : bool) :
  allow_request_calls (map (fun t => EvAllowRequest t b) l) = map (fun t => (t, b)) l.
Proof.
  induction l as [|t l IH]; simpl; [reflexivity|]. rewrite IH. reflexivity.
Qed.

Lemma wait_calls_allowed (l : list Throttle) (b : bool) :
  wait_calls (map (fun t => EvAllowRequest t b) l) = [].
Proof. induction l as [|t l IH]; simpl; auto. Qed.

Lemma permission_events_map (l : list Permission) (b : bool) :
  forallb permission_event (map (fun p => EvHasPermission p b) l) = true.
Proof. induction l as [|p l IH]; simpl; auto. Qed.

(** The [has_permission] calls of a run of the permission loop. *)
Lemma perm_outcome_calls (l : list Permission) (s s' : St) (r : Res unit) :
  perm_outcome l s r s' ->
  (r = Ret tt /\
   log s' = log s ++ map (fun p => EvHasPermission p true) l /\
   view s' = view s)
  \/
  (exists pre post p s1 e,
      l = pre ++ p :: post /\
      has_permission_calls (events_since s s') =
        map (fun q => (q, true)) pre ++ [(p, false)] /\
      log s1 = log s ++ map (fun q => EvHasPermission q true) pre
                     ++ [EvHasPermission p false] /\
      view s1 = view s /\
      permission_denied (message p) (code p) s1 = (r, s') /\
      r = Raise e).
Proof.
  intros [Hlog Hall Hr Hv | pre post p s1 e Hl Hlog Hall Hp Hv Ha Hd Hr].
  - left. repeat split; assumption.
  - right. exists pre, post, p, s1, e. repeat split; auto.
    destruct (permission_denied_effect (message p) (code p) s1) as [_ [d [Hd1 Hd2]]].
    rewrite Hd in Hd1. simpl in Hd1.
    rewrite Hlog, <- app_assoc in Hd1.
    rewrite (events_since_app _ _ _ Hd1), !has_permission_calls_app,
      has_permission_calls_map, Hd2. simpl. rewrite app_nil_r. reflexivity.
Qed.

(** X5.  [initial] returns only when all three steps passed: no call of
    [authenticate()] raised, every resolved permission was asked and
    returned true, every throttle could be built, was asked and allowed the
    request, and no wait was asked. *)
Theorem initial_returns_only_if_all_pass (s : St) :
  fst (initial s) = Ret tt ->
  let d := events_since s (snd (initial s)) in
  exists auths perms ts,
    fst (get_authenticators s) = Ret auths /\
    fst (get_permissions s) = Ret perms /\
    fst (get_throttles s) = Ret ts /\
    (forall a e, ~ In (a, AuthRaise e) (authenticate_calls d)) /\
    has_permission_calls d = map (fun p => (p, true)) perms /\
    allow_request_calls d = map (fun t => (t, true)) ts /\
    wait_calls d = [].
Proof.
  intros H d. subst d. rewrite initial_steps in *.
  (* authentication *)
  destruct (get_authenticators_spec s) as [auths Hg].
  assert (Ha : fst (get_authenticators s) = Ret auths) by (rewrite Hg; reflexivity).
  pose proof (perform_authentication_outcome s auths Ha) as Ho.
  apply auth_outcome_calls in Ho.
  destruct (logs_perform_authentication s) as [d1 [Hl1 Hp1]].
  pose proof (proj1 (frames_perform_authentication s)) as Hc1.
  destruct (perform_authentication s) as [[u1|e1] s1] eqn:Hpa;
    simpl in *; [|discriminate].
  assert (Hcalls1 : forall a e, ~ In (a, AuthRaise e) (authenticate_calls d1)).
  { assert (Hev : events_since
                    (mkSt (mkView (authentication_classes (view s))
                             (permission_classes (view s))
                             (throttle_handlers (view s)) (Some auths)
                             (Some false) (authenticator (view s)))
                       (app s) (amb s) (log s)) s1 = d1)
      by (apply events_since_app; exact Hl1).
    rewrite Hev in Ho. intros a e Hin.
    destruct Ho as [[pre [post [b [t [_ [Hc _]]]]]]
                   |[[Hc _]|[pre [post [b [e0 [e0' [_ [_ [_ Hr]]]]]]]]]];
      try discriminate; rewrite Hc in Hin.
    - apply in_app_or in Hin. destruct Hin as [Hin|[Hin|[]]]; [|discriminate].
      apply in_map_iff in Hin. destruct Hin as [x [Hx _]]. discriminate.
    - apply in_map_iff in Hin. destruct Hin as [x [Hx _]]. discriminate. }
  destruct (authentication_events_calls d1 Hp1) as [Hperm1 [Hallow1 Hwait1]].
  (* permissions *)
  pose (perms := map new_permission
                   (py_or (permission_classes (view s))
                      (getattr (PERMISSION_CLASSES (app s)) []))).
  assert (Hgp : fst (get_permissions s1) = Ret perms).
  { rewrite (get_permissions_config s s1 Hc1), get_permissions_spec.
    reflexivity. }
  pose proof (check_permissions_outcome s1 perms Hgp) as Hop.
  apply perm_outcome_calls in Hop.
  pose proof (proj1 (frames_check_permissions s1)) as Hc2.
  destruct (check_permissions s1) as [[u2|e2] s2] eqn:Hcp;
    simpl in *; [|discriminate].
  destruct Hop as [[_ [Hl2 Hv2]]|[pre [post [p [s1' [e [_ [_ [_ [_ [_ Hr]]]]]]]]]]];
    [|discriminate].
  set (d2 := map (fun p => EvHasPermission p true) perms) in *.
  destruct (permission_events_calls d2 (permission_events_map perms true))
    as [Hauth2 [Hallow2 Hwait2]].
  (* throttles *)
  pose proof (get_throttles_config s s2 (same_config_trans _ _ _ Hc1 Hc2)) as Hgt.
  destruct (fst (get_throttles s2)) as [ts|e3] eqn:Hts.
  - rewrite (check_throttles_eq s2 ts Hts) in *.
    destruct (check_throttles_loop ts [] s2) as [r3 s3] eqn:Hloop.
    apply check_throttles_loop_trace in Hloop.
    destruct Hloop as [d3 [ds [Htrace [Hl3 [Hr3 _]]]]]. simpl in Hr3. subst r3.
    destruct ds as [|z ds]; simpl in H; [|discriminate].
    pose proof (throttle_trace_all_allowed _ _ _ Htrace eq_refl) as Hd3.
    destruct (throttle_events_calls d3 (throttle_trace_events _ _ _ Htrace))
      as [Hauth3 Hperm3].
    assert (Hev : events_since s s3 = d1 ++ d2 ++ d3).
    { apply events_since_app. rewrite Hl3, Hl2, Hl1, <- !app_assoc. reflexivity. }
    exists auths, perms, ts. cbn [snd]. rewrite Hev.
    rewrite !authenticate_calls_app, !has_permission_calls_app,
      !allow_request_calls_app, !wait_calls_app.
    rewrite Hauth2, Hauth3, Hperm1, Hperm3, Hallow1, Hallow2, Hwait1, Hwait2.
    rewrite !app_nil_r. simpl.
    repeat split; auto.
    + unfold d2. apply has_permission_calls_map.
    + rewrite Hd3. apply allow_request_calls_map.
    + rewrite Hd3. apply wait_calls_allowed.
  - exfalso. unfold check_throttles, bind in H.
    rewrite (surjective_pairing (get_throttles s2)), Hts in H. discriminate.
Qed.

(** X6.  When [perform_authentication] returned and a permission [p] then
    returned false, [initial] ends as [check_permissions] does, and the kind
    of the error follows from the authentication step: with at least one
    authenticator configured and none that returned a tuple it is
    [NotAuthenticated], carrying the header the first configured
    authenticator returns when asked at that moment; otherwise (no
    authenticator configured, or one returned a tuple) it is
    [PermissionDenied] with the message and code of [p]. *)
Theorem denied_request_error (s : St) (p : Permission) :
  let s1 := snd (perform_authentication s) in
  let s2 := snd (check_permissions s1) in
  fst (perform_authentication s) = Ret tt ->
  In (p, false) (has_permission_calls (events_since s1 s2)) ->
  exists auths : list Authenticator,
    fst (get_authenticators s) = Ret auths /\
    initial s = check_permissions s1 /\
    match auths, filter succeeded (authenticate_calls (events_since s s1)) with
    | a0 :: _, [] =>
        exists (h : string) (d : list Event),
          fst (initial s) =
            Raise (mkExc NotAuthenticated None None None (Some (Some h))) /\
          events_since s1 s2 = d ++ [EvAuthenticateHeader a0 h]
    | _, _ =>
        fst (initial s) =
          Raise (mkExc PermissionDenied (message p) (code p) None None)
    end.
Proof.
  intros s1 s2 Hret Hin. subst s1 s2.
  destruct (get_authenticators_spec s) as [auths Hg].
  assert (Ha : fst (get_authenticators s) = Ret auths) by (rewrite Hg; reflexivity).
  pose proof (perform_authentication_outcome s auths Ha) as Ho.
  set (s0 := mkSt _ _ _ _) in Ho.
  assert (Hev : events_since s (snd (perform_authentication s)) =
                events_since s0 (snd (perform_authentication s))) by reflexivity.
  rewrite Hev. clear Hev.
  set (s1 := snd (perform_authentication s)) in *.
  pose proof (check_permissions_outcome s1 _
                (f_equal fst (get_permissions_spec s1))) as Hop.
  apply perm_outcome_calls in Hop.
  destruct Hop as [[_ [Hl2 _]]
                  |[pre [post [q [s1' [e [_ [Hc [Hl2 [Hv [Hd Hr]]]]]]]]]]].
  { exfalso. rewrite (events_since_app _ _ _ Hl2), has_permission_calls_map in Hin.
    apply in_map_iff in Hin. destruct Hin as [x [Hx _]]. discriminate. }
  assert (q = p).
  { rewrite Hc in Hin. apply in_app_or in Hin. destruct Hin as [Hin|[Hin|[]]].
    - apply in_map_iff in Hin. destruct Hin as [x [Hx _]]. discriminate.
    - injection Hin as ->. reflexivity. }
  subst q.
  assert (Hinit : initial s = check_permissions s1).
  { rewrite initial_steps. subst s1.
    destruct (perform_authentication s) as [r1 s1] eqn:Hpa. simpl in *.
    subst r1. destruct (check_permissions s1) as [r2 s2']. simpl in Hr.
    subst r2. reflexivity. }
  exists auths. split; [exact Ha|]. split; [exact Hinit|].
  rewrite Hinit.
  assert (Hcp : check_permissions s1 =
                permission_denied (message p) (code p) s1').
  { rewrite Hd. apply surjective_pairing. }
  rewrite Hcp, permission_denied_spec, Hv.
  destruct Ho as [pre0 post0 a t Hl Hlog Hr0 Hs Hm Hk
                 | Hlog Hr0 Hv0 Hg'
                 | pre0 post0 a e0 e0' tail Hl Hlog He Hr0 Hv0].
  - rewrite Hk, Hs, (events_since_app _ _ _ Hlog).
    rewrite authenticate_calls_app, authenticate_calls_map, filter_app,
      filter_succeeded_none. simpl.
    destruct auths as [|a0 l]; reflexivity.
  - rewrite Hv0, (events_since_app _ _ _ Hlog).
    rewrite authenticate_calls_map, filter_succeeded_none. simpl.
    destruct auths as [|a0 l]; [reflexivity|].
    exists (fst (authenticate_header a0 (amb s1'))),
      (map (fun q => EvHasPermission q true) pre ++ [EvHasPermission p false]).
    split; [reflexivity|]. simpl.
    apply events_since_app. simpl. rewrite Hl2, <- !app_assoc. reflexivity.
  - exfalso. rewrite Hret in Hr0. discriminate.
Qed.

(** ** Policies that never object *)

Lemma perform_authentication_loop_returns (l : list Authenticator) :
  Forall (fun a => forall w, exists o, fst (authenticate a w) = AuthReturn o) l ->
  forall s : St, fst (perform_authentication_loop l s) = Ret tt.
Proof.
  induction l as [|a l IH]; intros Hall s; [reflexivity|].
  inversion Hall as [|a' l' Ha Hl]; subst.
  cbn [perform_authentication_loop]. rewrite bind_call.
  destruct (Ha (amb s)) as [o Ho]. rewrite Ho.
  destruct o as [t|]; [reflexivity|]. apply IH. exact Hl.
Qed.

Lemma check_permissions_loop_returns (l : list Permission) :
  Forall (fun p => forall w, fst (has_permission p w) = true) l ->
  forall s : St, fst (check_permissions_loop l s) = Ret tt.
Proof.
  induction l as [|p l IH]; intros Hall s; [reflexivity|].
  inversion Hall as [|p' l' Hp Hl]; subst.
  cbn [check_permissions_loop]. rewrite bind_call, Hp. simpl.
  apply IH. exact Hl.
Qed.

Lemma check_throttles_loop_returns (l : list Throttle) :
  Forall (fun t => forall w, fst (allow_request t w) = true) l ->
  forall (acc : list Z) (s : St), fst (check_throttles_loop l acc s) = Ret acc.
Proof.
  induction l as [|t l IH]; intros Hall acc s; [reflexivity|].
  inversion Hall as [|t' l' Ht Hl]; subst.
  cbn [check_throttles_loop]. rewrite bind_call, Ht. simpl.
  apply IH. exact Hl.
Qed.

(** X8.  Authentication does not reject a request by itself.  When no
    resolved authenticator ever raises (whether or not one returns a
    tuple), every resolved permission always returns true and every
    throttle always allows, [initial] returns and [dispatch_request] enters
    the handler body, exactly once, and never the exception handler: a
    request that no authenticator could authenticate is served like any
    other. *)
Theorem request_proceeds_when_no_policy_objects (s : St)
  (auths : list Authenticator) (perms : list Permission) (ts : list Throttle) :
  fst (get_authenticators s) = Ret auths ->
  fst (get_permissions s) = Ret perms ->
  fst (get_throttles s) = Ret ts ->
  Forall (fun a => forall w, exists o, fst (authenticate a w) = AuthReturn o) auths ->
  Forall (fun p => forall w, fst (has_permission p w) = true) perms ->
  Forall (fun t => forall w, fst (allow_request t w) = true) ts ->
  let s' := snd (dispatch_request s) in
  fst (initial s) = Ret tt /\
  fst (dispatch_request s) =
    fst (super_dispatch_request tt (amb (snd (initial s)))) /\
  handler_body_calls (events_since s s') = 1 /\
  exception_handler_calls (events_since s s') = [].
Proof.
  intros Ha Hp Ht Hauth Hperm Hthr s'. subst s'.
  assert (Hinit : fst (initial s) = Ret tt).
  { rewrite initial_steps.
    pose proof (proj1 (frames_perform_authentication s)) as Hc1.
    assert (H1 : fst (perform_authentication s) = Ret tt).
    { unfold perform_authentication, bind. simpl.
      unfold get_authenticators, bind, get_view, get_app, set_authenticators, ret
        in Ha |- *.
      simpl in Ha |- *. injection Ha as Ha. rewrite Ha.
      apply perform_authentication_loop_returns. exact Hauth. }
    destruct (perform_authentication s) as [r1 s1]. simpl in H1, Hc1. subst r1.
    pose proof (proj1 (frames_check_permissions s1)) as Hc2.
    assert (H2 : fst (check_permissions s1) = Ret tt).
    { pose proof (get_permissions_config s s1 Hc1) as Hgp.
      rewrite Hp, get_permissions_spec in Hgp. simpl in Hgp.
      injection Hgp as Hgp.
      unfold check_permissions, bind. rewrite get_permissions_spec, Hgp.
      apply check_permissions_loop_returns. exact Hperm. }
    destruct (check_permissions s1) as [r2 s2]. simpl in H2, Hc2. subst r2.
    pose proof (get_throttles_config s s2 (same_config_trans _ _ _ Hc1 Hc2)) as Hgt.
    rewrite Ht in Hgt. rewrite (check_throttles_eq s2 ts Hgt).
    pose proof (check_throttles_loop_returns ts Hthr [] s2) as H3.
    destruct (check_throttles_loop ts [] s2) as [r3 s3]. simpl in H3. subst r3.
    reflexivity. }
  split; [exact Hinit|].
  destruct (initial_policy_events s) as [_ [d [Hlog [Hev [Hnoexc Hnobody]]]]].
  destruct (initial s) as [r s1] eqn:Hi. simpl in *. subst r.
  rewrite (dispatch_request_return _ _ _ Hi). simpl.
  assert (Hd : events_since s
                 (mkSt (view s1) (app s1)
                    (snd (super_dispatch_request tt (amb s1)))
                    (log s1 ++ [EvHandlerBody])) = d ++ [EvHandlerBody]).
  { apply events_since_app. simpl. rewrite Hlog, app_assoc. reflexivity. }
  rewrite Hd, exception_handler_calls_app, handler_body_calls_app,
    Hnoexc, Hnobody.
  repeat split.
Qed.

End RequestGate.

(** * The properties on sample requests *)

(** C1 on three authenticators of which the second succeeds. *)
Lemma perform_authentication_first_success_witness :
  let s := @sample_authentication unit unit unit unit tt tt tt in
  let auths := map new_authenticator [FailingAuth; PassingAuth tt tt; FailingAuth] in
  let r := fst (perform_authentication s) in
  let s' := snd (perform_authentication s) in
  (exists pre post a t,
      auths = pre ++ a :: post /\
      all_return_none pre (amb s) /\
      fst (authenticate a (consulted pre (amb s))) = AuthReturn (Some t) /\
      events_since s s' =
        map (fun x => EvAuthenticate x (AuthReturn None)) pre
        ++ [EvAuthenticate a (AuthReturn (Some t))] /\
      r = Ret tt /\
      successful_authenticated (view s') = Some true /\
      authenticator (view s') = Some a)
  \/
  (all_return_none auths (amb s) /\
   events_since s s' = map (fun x => EvAuthenticate x (AuthReturn None)) auths /\
   r = Ret tt /\
   successful_authenticated (view s') = Some false /\
   authenticator (view s') = authenticator (view s))
  \/
  (exists pre post a e tail,
      auths = pre ++ a :: post /\
      all_return_none pre (amb s) /\
      fst (authenticate a (consulted pre (amb s))) = AuthRaise e /\
      events_since s s' =
        map (fun x => EvAuthenticate x (AuthReturn None)) pre
        ++ EvAuthenticate a (AuthRaise e) :: tail /\
      authenticate_calls tail = [] /\
      (exists e', r = Raise e') /\
      successful_authenticated (view s') = Some false /\
      authenticator (view s') = authenticator (view s)).
Proof.
  exact (perform_authentication_first_success
           (@sample_authentication unit unit unit unit tt tt tt)
           (map new_authenticator [FailingAuth; PassingAuth tt tt; FailingAuth])
           eq_refl).
Defined.

(** C7 on the same request. *)
Lemma active_authenticator_invariant_witness :
  let s := @sample_authentication unit unit unit unit tt tt tt in
  let s' := snd (perform_authentication s) in
  let successes := filter succeeded (authenticate_calls (events_since s s')) in
  (List.length successes <= 1)%nat /\
  (forall a, authenticator (view s') = Some a <->
             exists t, successes = [(a, AuthReturn (Some t))]) /\
  (authenticator (view s') = None <->
   successful_authenticated (view s') = Some false).
Proof.
  exact (active_authenticator_invariant
           (@sample_authentication unit unit unit unit tt tt tt) eq_refl).
Defined.

(** C9 on two authenticators that both return [None]. *)
Lemma perform_authentication_unauthenticated_witness :
  let s := @sample_unauthenticated unit unit unit unit tt in
  let r := fst (perform_authentication s) in
  let s' := snd (perform_authentication s) in
  r = Ret tt /\
  successful_authenticated (view s') = Some false /\
  authenticator (view s') = authenticator (view s) /\
  g_current_user (amb s') = Some None.
Proof.
  exact (perform_authentication_unauthenticated
           (@sample_unauthenticated unit unit unit unit tt)
           (map new_authenticator [FailingAuth; FailingAuth])
           eq_refl (or_intror eq_refl)).
Defined.

(** C2 after authentication, on three permissions of which the second
    denies. *)
Lemma check_permissions_fail_fast_witness :
  let s := snd (perform_authentication (@sample_denial unit unit unit unit tt)) in
  let perms := map new_permission [AlwaysAllow; AlwaysDeny; AlwaysAllow] in
  let r := fst (check_permissions s) in
  let s' := snd (check_permissions s) in
  let calls := has_permission_calls (events_since s s') in
  ((r = Ret tt /\ calls = map (fun p => (p, true)) perms)
   \/
   (exists pre post p s1 e,
       perms = pre ++ p :: post /\
       events_since s s1 =
         map (fun q => EvHasPermission q true) pre ++ [EvHasPermission p false] /\
       check_permissions s = permission_denied (message p) (code p) s1 /\
       r = Raise e /\
       calls = map (fun q => (q, true)) pre ++ [(p, false)]))
  /\ (r = Ret tt -> calls = map (fun p => (p, true)) perms).
Proof.
  exact (check_permissions_fail_fast
           (snd (perform_authentication (@sample_denial unit unit unit unit tt)))
           (map new_permission [AlwaysAllow; AlwaysDeny; AlwaysAllow])
           eq_refl).
Defined.

(** C3 on scenario C of the specification with an allowing throttle in
    between. *)
Lemma check_throttles_max_wait_witness :
  let s := @sample_throttles unit unit unit unit tt in
  let ts := [new_throttle (FixedThrottle false 5) (Some "1/s"%string);
             new_throttle (FixedThrottle true 0) (Some "9/s"%string);
             new_throttle (FixedThrottle false 2) (Some "3/s"%string)] in
  let r := fst (check_throttles s) in
  let d := events_since s (snd (check_throttles s)) in
  let waits := map snd (wait_calls d) in
  throttle_trace ts d waits /\
  map fst (allow_request_calls d) = ts /\
  map fst (wait_calls d) = map fst (denials d) /\
  (denials d = [] -> r = Ret tt) /\
  (denials d <> [] ->
   exists m : Z,
     In m waits /\
     Forall (fun w => (w <= m)%Z) waits /\
     py_max waits = Some m /\
     r = Raise (mkExc Throttled None None (Some m) None)).
Proof.
  exact (check_throttles_max_wait
           (@sample_throttles unit unit unit unit tt)
           [new_throttle (FixedThrottle false 5) (Some "1/s"%string);
            new_throttle (FixedThrottle true 0) (Some "9/s"%string);
            new_throttle (FixedThrottle false 2) (Some "3/s"%string)]
           eq_refl).
Defined.

(** C4 after one authenticator failed. *)
Lemma permission_denied_escalation_witness :
  let s := snd (perform_authentication (@sample_denial unit unit unit unit tt)) in
  let auths := [new_authenticator FailingAuth] in
  let msg := Some "denied"%string in
  let cod := Some "permission_denied"%string in
  let r := fst (permission_denied msg cod s) in
  let s' := snd (permission_denied msg cod s) in
  (auths <> [] /\ false = false ->
   exists a h,
     hd_error auths = Some a /\
     h = fst (authenticate_header a (amb s)) /\
     r = Raise (mkExc NotAuthenticated None None None (Some (Some h))) /\
     events_since s s' = [EvAuthenticateHeader a h])
  /\
  (auths = [] \/ false = true ->
   r = Raise (mkExc PermissionDenied msg cod None None) /\
   events_since s s' = []).
Proof.
  exact (permission_denied_escalation
           (snd (perform_authentication (@sample_denial unit unit unit unit tt)))
           [new_authenticator FailingAuth] false
           (Some "denied"%string) (Some "permission_denied"%string)
           eq_refl eq_refl).
Defined.

(** C10 on a request whose authentication step has not run. *)
Lemma permission_denied_needs_authentication_step_witness :
  let s := @sample_denial unit unit unit unit tt in
  (forall msg cod,
      permission_denied msg cod s = (Raise new_AttributeError, s)) /\
  (forall p,
      In (p, false) (has_permission_calls
                       (events_since s (snd (check_permissions s)))) ->
      fst (check_permissions s) = Raise new_AttributeError) /\
  (forall (s2 : @St unit unit unit unit) a l msg cod,
      authenticators (view s2) = Some (a :: l) ->
      successful_authenticated (view s2) = None ->
      permission_denied msg cod s2 = (Raise new_AttributeError, s2)) /\
  (forall msg cod,
      let s1 := snd (perform_authentication s) in
      authenticators (view s1) <> None /\
      successful_authenticated (view s1) <> None /\
      exists e, fst (permission_denied msg cod s1) = Raise e /\
                (exc_class e = NotAuthenticated \/ exc_class e = PermissionDenied)).
Proof.
  exact (permission_denied_needs_authentication_step
           (@sample_denial unit unit unit unit tt) eq_refl).
Defined.

(** C8 on a request whose permission step raises [NotAuthenticated]. *)
Lemma initial_errors_reach_exception_handler_witness :
  let s := @sample_denial unit unit unit nat tt in
  let e := mkExc NotAuthenticated None None None (Some (Some "Basic"%string)) in
  let eh := responding 500 in
  let body := responding 200 in
  let s1 := snd (initial s) in
  let s' := snd (dispatch_request eh body s) in
  let handler := getattr (EXCEPTION_HANDLER (app s)) eh in
  fst (dispatch_request eh body s) = fst (handler e (amb s1)) /\
  amb s' = snd (handler e (amb s1)) /\
  events_since s s' = events_since s s1 ++ [EvExceptionHandler e] /\
  exception_handler_calls (events_since s s') = [e] /\
  handler_body_calls (events_since s s') = 0.
Proof.
  exact (initial_errors_reach_exception_handler
           (responding 500) (responding 200)
           (@sample_denial unit unit unit nat tt)
           (mkExc NotAuthenticated None None None (Some (Some "Basic"%string)))
           eq_refl).
Defined.

(** C5 as stated fails on scenario D: the view-level permission list is
    empty, the default denies, and the request does not proceed.
    [initial] raises [PermissionDenied], the exception handler answers and
    the handler body is not entered. *)
Lemma empty_permission_list_override_refuted :
  let s := @scenario_D unit unit unit nat tt in
  let s' := snd (dispatch_request (responding 500) (responding 200) s) in
  permission_classes (view s) = [] /\
  PERMISSION_CLASSES (app s) = Some [AlwaysDeny] /\
  fst (check_permissions (snd (perform_authentication s))) =
    Raise (mkExc PermissionDenied (Some "denied"%string)
             (Some "permission_denied"%string) None None) /\
  fst (initial s) <> Ret tt /\
  fst (dispatch_request (responding 500) (responding 200) s) = Ret 500 /\
  handler_body_calls (events_since s s') = 0.
Proof.
  repeat split. discriminate.
Qed.

(** The amended C5 on scenario D. *)
Lemma empty_permission_list_uses_default_witness :
  let s := @scenario_D unit unit unit nat tt in
  let eh := responding 500 in
  let body := responding 200 in
  let s' := snd (dispatch_request eh body s) in
  fst (get_permissions s) = Ret (map new_permission [AlwaysDeny]) /\
  (exists e, fst (check_permissions s) = Raise e) /\
  (exists e, fst (initial s) = Raise e /\
             exception_handler_calls (events_since s s') = [e]) /\
  handler_body_calls (events_since s s') = 0.
Proof.
  exact (empty_permission_list_uses_default
           (responding 500) (responding 200)
           (@scenario_D unit unit unit nat tt) [AlwaysDeny] AlwaysDeny
           eq_refl eq_refl (or_introl eq_refl) (fun _ => eq_refl)).
Defined.

(** * The further properties on sample requests *)

(** X1 on a request that passes and whose handler body raises. *)
Lemma handler_body_errors_bypass_exception_handler_witness :
  let s := @sample_passing unit unit unit nat tt tt tt in
  let eh := responding 500 in
  let body := @failing_body unit unit nat in
  let s1 := snd (initial s) in
  let s' := snd (dispatch_request eh body s) in
  fst (dispatch_request eh body s) = fst (body tt (amb s1)) /\
  amb s' = snd (body tt (amb s1)) /\
  events_since s s' = events_since s s1 ++ [EvHandlerBody] /\
  exception_handler_calls (events_since s s') = [] /\
  handler_body_calls (events_since s s') = 1.
Proof.
  exact (handler_body_errors_bypass_exception_handler
           (responding 500) failing_body
           (@sample_passing unit unit unit nat tt tt tt) eq_refl).
Defined.

(** X2 on a request denied at the permission step. *)
Lemma initial_stops_at_first_failing_step_witness :
  let s := @sample_denial unit unit unit unit tt in
  let e := mkExc NotAuthenticated None None None (Some (Some "Basic"%string)) in
  let d := events_since s (snd (initial s)) in
  fst (initial s) = Raise e /\
  allow_request_calls d = [] /\
  wait_calls d = [] /\
  (fst (perform_authentication s) = Raise e -> has_permission_calls d = []).
Proof.
  exact (initial_stops_at_first_failing_step
           (@sample_denial unit unit unit unit tt)
           (mkExc NotAuthenticated None None None (Some (Some "Basic"%string)))
           (or_intror (conj eq_refl eq_refl))).
Defined.

(** X3 on three authenticators of which the second raises. *)
Lemma authentication_error_carries_header_witness :
  let s := @sample_bad_credentials unit unit unit unit tt in
  let e' := mkExc AuthenticationFailed (Some "bad token"%string) None None
              (Some (Some "Bearer"%string)) in
  let s' := snd (perform_authentication s) in
  exists auths pre a post e tail,
    fst (get_authenticators s) = Ret auths /\
    auths = pre ++ a :: post /\
    events_since s s' =
      map (fun x => EvAuthenticate x (AuthReturn None)) pre
      ++ EvAuthenticate a (AuthRaise e) :: tail /\
    (is_APIException (exc_class e) = true /\
     (exists h, tail = [EvAuthenticateHeader a h] /\
                e' = mkExc (exc_class e) (exc_detail e) (exc_code e)
                       (exc_duration e) (Some (Some h)))
     \/ is_APIException (exc_class e) = false /\ tail = [] /\ e' = e) /\
    successful_authenticated (view s') = Some false /\
    authenticator (view s') = authenticator (view s) /\
    authenticators (view s') = Some auths.
Proof.
  exact (authentication_error_carries_header
           (@sample_bad_credentials unit unit unit unit tt)
           (mkExc AuthenticationFailed (Some "bad token"%string) None None
              (Some (Some "Bearer"%string)))
           eq_refl).
Defined.

(** X4 on a list whose second entry has no class. *)
Lemma malformed_throttle_entry_stops_all_witness :
  let s := @sample_malformed_throttles unit unit unit unit tt in
  get_throttles s = (Raise new_TypeError, s) /\
  check_throttles s = (Raise new_TypeError, s).
Proof.
  apply (proj1 (malformed_throttle_entry_stops_all
                  (@sample_malformed_throttles unit unit unit unit tt))).
  simpl. apply Exists_cons_tl, Exists_cons_hd. reflexivity.
Defined.

(** X5 on a request that passes. *)
Lemma initial_returns_only_if_all_pass_witness :
  let s := @sample_passing unit unit unit unit tt tt tt in
  let d := events_since s (snd (initial s)) in
  exists auths perms ts,
    fst (get_authenticators s) = Ret auths /\
    fst (get_permissions s) = Ret perms /\
    fst (get_throttles s) = Ret ts /\
    (forall a e, ~ In (a, AuthRaise e) (authenticate_calls d)) /\
    has_permission_calls d = map (fun p => (p, true)) perms /\
    allow_request_calls d = map (fun t => (t, true)) ts /\
    wait_calls d = [].
Proof.
  exact (initial_returns_only_if_all_pass
           (@sample_passing unit unit unit unit tt tt tt) eq_refl).
Defined.

(** X6 on a request that no authenticator authenticated and a permission
    denies. *)
Lemma denied_request_error_witness :
  let s := @sample_denial unit unit unit unit tt in
  let p := @new_permission unit unit AlwaysDeny in
  let s1 := snd (perform_authentication s) in
  let s2 := snd (check_permissions s1) in
  exists auths : list Authenticator,
    fst (get_authenticators s) = Ret auths /\
    initial s = check_permissions s1 /\
    match auths, filter succeeded (authenticate_calls (events_since s s1)) with
    | a0 :: _, [] =>
        exists (h : string) (d : list Event),
          fst (initial s) =
            Raise (mkExc NotAuthenticated None None None (Some (Some h))) /\
          events_since s1 s2 = d ++ [EvAuthenticateHeader a0 h]
    | _, _ =>
        fst (initial s) =
          Raise (mkExc PermissionDenied (message p) (code p) None None)
    end.
Proof.
  exact (denied_request_error
           (@sample_denial unit unit unit unit tt) (new_permission AlwaysDeny)
           eq_refl (or_intror (or_introl eq_refl))).
Defined.

(** X8 on a request whose first authenticator fails and whose second one
    authenticates. *)
Lemma request_proceeds_when_no_policy_objects_witness :
  let s := @sample_passing unit unit unit nat tt tt tt in
  let eh := responding 500 in
  let body := responding 200 in
  let s' := snd (dispatch_request eh body s) in
  fst (initial s) = Ret tt /\
  fst (dispatch_request eh body s) = fst (body tt (amb (snd (initial s)))) /\
  handler_body_calls (events_since s s') = 1 /\
  exception_handler_calls (events_since s s') = [].
Proof.
  apply (request_proceeds_when_no_policy_objects
           (responding 500) (responding 200)
           (@sample_passing unit unit unit nat tt tt tt)
           (map new_authenticator [FailingAuth; PassingAuth tt tt])
           (map new_permission [AlwaysAllow])
           [new_throttle (FixedThrottle true 0) (Some "9/s"%string)]
           eq_refl eq_refl eq_refl).
  - simpl. repeat apply Forall_cons; try apply Forall_nil;
      intros w; eexists; reflexivity.
  - simpl. repeat apply Forall_cons; try apply Forall_nil;
      intros w; reflexivity.
  - repeat apply Forall_cons; try apply Forall_nil; intros w; reflexivity.
Defined.

End APIView.
